(** * rPPG Focus Monitor: the signal pipeline of
      [r_ppg_focus_monitor_web_on_device.jsx]

    The component keeps its DSP state in one mutable object ([stRef.current])
    and its displayed metrics in React state.  The embedding below passes both
    explicitly: [St] is the mutable object, [Ui] the React state.

    Numbers.  A JavaScript number is modelled as a real ([R]): arithmetic is
    exact, so rounding error, overflow and the infinities are outside the
    model.  [null], [undefined] and the [NaN] that [computeRMSSD] returns on
    purpose are modelled by [None].  Values that the source obtains from
    [Math.round] or [Math.floor] are integers and live in [Z]; they re-enter
    real arithmetic through [IZR]. *)

From Stdlib Require Import Reals Lra Lia List ZArith Bool.
From Stdlib Require Import Sorting Permutation.
Import ListNotations.
Open Scope R_scope.

(** ** JavaScript primitives used by the component *)

Module Js.

(** Comparisons of numbers, as booleans. *)
Definition ltb (a b : R) : bool := if Rlt_dec a b then true else false.
Definition leb (a b : R) : bool := if Rle_dec a b then true else false.
Definition gtb (a b : R) : bool := ltb b a.
Definition eqb (a b : R) : bool := if Req_dec_T a b then true else false.

(** [Math.floor], and [Math.round] (nearest integer, halves go up). *)
Definition Math_floor (x : R) : Z := Int_part x.
Definition Math_round (x : R) : Z := Int_part (x + / 2).

Definition Math_max (a b : R) : R := Rmax a b.
Definition Math_min (a b : R) : R := Rmin a b.

(** [Math.SQRT1_2] *)
Definition SQRT1_2 : R := sqrt (/ 2).

(** Truthiness of [number | null]: [null], [NaN] and [0] are falsy. *)
Definition truthy (v : option R) : bool :=
  match v with
  | Some x => negb (eqb x 0)
  | None => false
  end.

(** [v ?? d] *)
Definition nullish (v : option R) (d : R) : R :=
  match v with
  | Some x => x
  | None => d
  end.

(** [a.reduce((s,v)=>s+v, 0)] and the [s += arr[i]] loops. *)
Definition sum (l : list R) : R := fold_left Rplus l 0.

(** [a.slice(i0)] for [0 <= i0]. *)
Definition slice {A : Type} (i0 : nat) (l : list A) : list A := skipn i0 l.

(** [a.shift()]: drops the first element, does nothing on an empty array. *)
Definition shift {A : Type} (l : list A) : list A := tl l.

(** [[...a].sort((x,y)=>x-y)]: ascending order. *)
Fixpoint insert_sorted (x : R) (l : list R) : list R :=
  match l with
  | [] => [x]
  | y :: l' => if leb x y then x :: l else y :: insert_sorted x l'
  end.

Definition sort (l : list R) : list R := fold_right insert_sorted [] l.

End Js.

Import Js.

(** ** IIR biquads (lines 635-658) *)

Inductive FilterType : Type := lp_type | hp_type.

(** The object returned by [biquad]: the five normalised coefficients are
    constants of the closure, [x1 x2 y1 y2] its mutable history. *)
Record Biquad : Type := mkBiquad {
  bz0 : R; bz1 : R; bz2 : R; az1 : R; az2 : R;
  x1 : R; x2 : R; y1 : R; y2 : R
}.

Definition biquad (fs fc Q : R) (type : FilterType) : Biquad :=
  let w0 := 2 * PI * fc / fs in
  let cosw0 := cos w0 in
  let sinw0 := sin w0 in
  let alpha := sinw0 / (2 * Q) in
  let '(b0, b1, b2, a0, a1, a2) :=
    match type with
    | lp_type =>
        ((1 - cosw0) / 2, 1 - cosw0, (1 - cosw0) / 2,
         1 + alpha, -2 * cosw0, 1 - alpha)
    | hp_type =>
        ((1 + cosw0) / 2, - (1 + cosw0), (1 + cosw0) / 2,
         1 + alpha, -2 * cosw0, 1 - alpha)
    end in
  {| bz0 := b0 / a0; bz1 := b1 / a0; bz2 := b2 / a0;
     az1 := a1 / a0; az2 := a2 / a0;
     x1 := 0; x2 := 0; y1 := 0; y2 := 0 |}.

Definition makeBiquadLP (fs fc : R) : Biquad := biquad fs fc SQRT1_2 lp_type.
Definition makeBiquadHP (fs fc : R) : Biquad := biquad fs fc SQRT1_2 hp_type.

(** [f.step(x)]: the output and the filter with its history advanced. *)
Definition step (f : Biquad) (x : R) : R * Biquad :=
  let y := bz0 f * x + bz1 f * x1 f + bz2 f * x2 f
           - az1 f * y1 f - az2 f * y2 f in
  (y, {| bz0 := bz0 f; bz1 := bz1 f; bz2 := bz2 f;
         az1 := az1 f; az2 := az2 f;
         x1 := x; x2 := x1 f; y1 := y; y2 := y1 f |}).

(** ** Processing helpers (lines 519-567) *)

(** [movingAverageTail(arr, win)].  [win] is an integer at its only call
    site ([Math.max(5, Math.floor(fs))]). *)
Definition movingAverageTail (arr : list R) (win : Z) : R :=
  match arr with
  | [] => 0
  | _ :: _ =>
      let n := Z.min win (Z.of_nat (length arr)) in
      sum (slice (length arr - Z.to_nat n) arr) / IZR n
  end.

(** The backwards scan of [getLatestSegment]: [k] indices remain to be
    examined, the next one is [k - 1]; the result is [i0]. *)
Fixpoint findStart (t : list R) (bound : R) (k : nat) : nat :=
  match k with
  | O => O
  | S i => if ltb (nth i t 0) bound then S i else findStart t bound i
  end.

Definition getLatestSegment (sig t : list R) (windowSec : R)
  : list R * R :=
  match sig, t with
  | [], _ => ([], 30)
  | _, [] => ([], 30)
  | _, _ =>
      let tmax := last t 0 in
      let i0 := findStart t (tmax - windowSec) (length t) in
      let segment := slice i0 sig in
      let fsUsed :=
        match nth_error t i0 with
        | Some ti0 =>
            let dt := (tmax - ti0)
                      / Math_max 1 (INR (length t - 1 - i0)) in
            if gtb dt 0 then Math_min 90 (Math_max 10 (1 / dt)) else 30
        | None => 30
        end in
      (segment, fsUsed)
  end.

(** One frequency bin of [goertzelSpectrum]. *)
Definition goertzelPower (x : list R) (fs f : R) : R :=
  let w := 2 * PI * f / fs in
  let coeff := 2 * cos w in
  let '(s_prev, s_prev2) :=
    fold_left (fun '(s_prev, s_prev2) xn =>
                 (xn + coeff * s_prev - s_prev2, s_prev)) x (0, 0) in
  let real := s_prev - s_prev2 * cos w in
  let imag := s_prev2 * sin w in
  real * real + imag * imag.

(** [goertzelSpectrum(x, fs, band, bins)]: [(freqs, powers)]. *)
Definition goertzelSpectrum (x : list R) (fs : R) (band : R * R)
  (bins : nat) : list R * list R :=
  let '(f0, f1) := band in
  let freqs :=
    map (fun i => f0 + (f1 - f0) * (INR i / (INR bins - 1))) (seq 0 bins) in
  (freqs, map (goertzelPower x fs) freqs).

Definition argmax (a : list R) : nat :=
  fold_left (fun m i => if gtb (nth i a 0) (nth m a 0) then i else m)
            (seq 1 (length a - 1)) 0%nat.

Definition median (a : list R) : R :=
  let b := sort a in
  let n := length b in
  match n with
  | O => 0
  | _ =>
      if Nat.odd n then nth ((n - 1) / 2) b 0
      else 0.5 * (nth (n / 2 - 1) b 0 + nth (n / 2) b 0)
  end.

Definition clamp (v min max : R) : R := Math_max min (Math_min max v).

(** [computeRMSSD(ibisSec)]; [None] is the [NaN] of the short-input case. *)
Fixpoint diffs (rrMs : list R) : list R :=
  match rrMs with
  | a :: (b :: _) as rest => (b - a) :: diffs rest
  | _ => []
  end.

Definition computeRMSSD (ibisSec : list R) : option R :=
  if (length ibisSec <? 3)%nat then None
  else
    let rrMs := map (fun s => s * 1000) ibisSec in
    let sq := map (fun d => d * d) (diffs rrMs) in
    let mean := sum sq / INR (length sq) in
    Some (sqrt mean).

(** ** Pipeline state *)

(** The fields of [stRef.current] that the signal pipeline reads or writes
    (lines 48-68).  The camera stream, the face detector, the region of
    interest and the frame counter belong to frame acquisition and are left
    out. *)
Record St : Type := mkSt {
  lastTs : R;
  fpsEMA : R;
  t : list R;
  gRaw : list R;
  bvp : list R;
  maxBufSec : R;
  hp : Biquad;
  lp : Biquad;
  lastPeakT : R;
  ibis : list R
}.

(** The React state of the component that the pipeline reads or sets
    (lines 24-34). *)
Record Ui : Type := mkUi {
  hrBpm : option R;
  rmssd : option R;
  focusScore : option R;
  snr : option R;
  baselineHR : option R;
  baselineRMSSD : option R
}.

Definition initialSt : St :=
  {| lastTs := 0; fpsEMA := 30;
     t := []; gRaw := []; bvp := [];
     maxBufSec := 60;
     hp := makeBiquadHP 30 0.7; lp := makeBiquadLP 30 3.0;
     lastPeakT := -1; ibis := [] |}.

Definition initialUi : Ui :=
  {| hrBpm := None; rmssd := None; focusScore := None; snr := None;
     baselineHR := None; baselineRMSSD := None |}.

Definition setHrBpm (v : option R) (u : Ui) : Ui :=
  {| hrBpm := v; rmssd := rmssd u; focusScore := focusScore u; snr := snr u;
     baselineHR := baselineHR u; baselineRMSSD := baselineRMSSD u |}.
Definition setSnr (v : option R) (u : Ui) : Ui :=
  {| hrBpm := hrBpm u; rmssd := rmssd u; focusScore := focusScore u; snr := v;
     baselineHR := baselineHR u; baselineRMSSD := baselineRMSSD u |}.
Definition setRmssd (v : option R) (u : Ui) : Ui :=
  {| hrBpm := hrBpm u; rmssd := v; focusScore := focusScore u; snr := snr u;
     baselineHR := baselineHR u; baselineRMSSD := baselineRMSSD u |}.
Definition setFocusScore (v : option R) (u : Ui) : Ui :=
  {| hrBpm := hrBpm u; rmssd := rmssd u; focusScore := v; snr := snr u;
     baselineHR := baselineHR u; baselineRMSSD := baselineRMSSD u |}.

Definition set_lastPeakT (v : R) (st : St) : St :=
  {| lastTs := lastTs st; fpsEMA := fpsEMA st;
     t := t st; gRaw := gRaw st; bvp := bvp st; maxBufSec := maxBufSec st;
     hp := hp st; lp := lp st; lastPeakT := v; ibis := ibis st |}.

Definition set_ibis (v : list R) (st : St) : St :=
  {| lastTs := lastTs st; fpsEMA := fpsEMA st;
     t := t st; gRaw := gRaw st; bvp := bvp st; maxBufSec := maxBufSec st;
     hp := hp st; lp := lp st; lastPeakT := lastPeakT st; ibis := v |}.

(** ** Peak detection (lines 569-594) *)

(** The adaptive threshold [mean + 0.6 * sd] over the recency window [seg].
    An empty window makes [mean] a [NaN]: [None]. *)
Definition threshold (seg : list R) : option R :=
  match seg with
  | [] => None
  | _ :: _ =>
      let mean := sum seg / INR (length seg) in
      let sd :=
        sqrt (sum (map (fun v => (v - mean) * (v - mean)) seg)
              / Math_max 1 (INR (length seg) - 1)) in
      Some (mean + 0.6 * sd)
  end.

(** The test of line 584 on the candidate [y[N-2]].  A comparison with a
    [NaN] threshold is false. *)
Definition isPeak (st : St) (fs : R) : bool :=
  let N := length (bvp st) in
  let y := bvp st in
  let winS := Math_min 5 (maxBufSec st) in
  let i0 := (Z.of_nat N - Math_floor (winS * fs))%Z in
  let i0 := if (i0 <? 0)%Z then 0%Z else i0 in
  let seg := slice (Z.to_nat i0) y in
  let i := (N - 2)%nat in
  match threshold seg with
  | None => false
  | Some thr =>
      gtb (nth i y 0) thr
      && gtb (nth i y 0) (nth (i - 1) y 0)
      && gtb (nth i y 0) (nth (i + 1) y 0)
  end.

(** [detectPeakAndIBI(st, fs)]: the returned interval ([None] for [null])
    and the state with [lastPeakT] possibly updated.  [t] and [bvp] have the
    same length in every state the component builds, so [t[N-2]] is in
    range whenever [5 <= N]. *)
Definition detectPeakAndIBI (st : St) (fs : R) : option R * St :=
  let N := length (bvp st) in
  if (N <? 5)%nat then (None, st)
  else
    if isPeak st fs then
      let tPeak := nth (N - 2) (t st) 0 in
      if ltb (lastPeakT st) 0 || gtb (tPeak - lastPeakT st) 0.33 then
        let ibi :=
          if gtb (lastPeakT st) 0 then Some (tPeak - lastPeakT st)
          else None in
        (ibi, set_lastPeakT tPeak st)
      else (None, st)
    else (None, st).

(** ** Buffer trimming (lines 607-619) *)

(** The first [while] loop: the three arrays are shifted together as long as
    the oldest timestamp is older than [cutoff]. *)
Fixpoint trimHead (cutoff : R) (t gRaw bvp : list R)
  : list R * list R * list R :=
  match t with
  | [] => (t, gRaw, bvp)
  | t0 :: t' =>
      if ltb t0 cutoff then trimHead cutoff t' (shift gRaw) (shift bvp)
      else (t, gRaw, bvp)
  end.

(** The second [while] loop: the oldest interval is dropped as long as the
    span of the (already trimmed) timestamps exceeds [maxBufSec]. *)
Fixpoint evictIbis (t : list R) (maxBufSec : R) (ibis : list R) : list R :=
  match ibis with
  | [] => ibis
  | _ :: ibis' =>
      if (1 <? length t)%nat then
        let span := last t 0 - hd 0 t in
        if leb span maxBufSec then ibis
        else evictIbis t maxBufSec ibis'
      else ibis
  end.

Definition trimBuffers (st : St) : St :=
  match t st with
  | [] => st
  | _ :: _ =>
      let tmax := last (t st) 0 in
      let cutoff := tmax - maxBufSec st in
      let '(t', gRaw', bvp') := trimHead cutoff (t st) (gRaw st) (bvp st) in
      {| lastTs := lastTs st; fpsEMA := fpsEMA st;
         t := t'; gRaw := gRaw'; bvp := bvp'; maxBufSec := maxBufSec st;
         hp := hp st; lp := lp st; lastPeakT := lastPeakT st;
         ibis := evictIbis t' (maxBufSec st) (ibis st) |}
  end.

(** ** [pushSample] (lines 280-323), in its three stages *)

(** The value appended to [bvp] and the two filters after their [step]
    (lines 285-289); [gRaw1] is [gRaw] with the new sample already pushed. *)
Definition filterSample (st : St) (gRaw1 : list R) (gMean fs : R)
  : R * Biquad * Biquad :=
  let win := Z.max 5 (Math_floor (1.0 * fs)) in
  let detr := gMean - movingAverageTail gRaw1 win in
  let '(y1, hp') := step (hp st) detr in
  let '(y2, lp') := step (lp st) y1 in
  (y2, hp', lp').

(** Lines 281-292: append to the three buffers, filter, trim. *)
Definition ingest (st : St) (tSec gMean fs : R) : St :=
  let t1 := t st ++ [tSec] in
  let gRaw1 := gRaw st ++ [gMean] in
  let '(y2, hp', lp') := filterSample st gRaw1 gMean fs in
  trimBuffers
    {| lastTs := lastTs st; fpsEMA := fpsEMA st;
       t := t1; gRaw := gRaw1; bvp := bvp st ++ [y2];
       maxBufSec := maxBufSec st;
       hp := hp'; lp := lp'; lastPeakT := lastPeakT st; ibis := ibis st |}.

(** Lines 294-306: the spectral heart-rate estimate.  [isFinite(hr)] holds
    for every real. *)
Definition spectral (st : St) (ui : Ui) : Ui :=
  let '(segment, fsUsed) := getLatestSegment (bvp st) (t st) 12 in
  if gtb (INR (length segment)) (fsUsed * 4) then
    let '(freqs, powers) := goertzelSpectrum segment fsUsed (0.7, 3.0) 120 in
    let k := argmax powers in
    let fPeak := nth k freqs 0 in
    let hr := fPeak * 60 in
    let med := median powers in
    let q := if gtb med 0 then Some (nth k powers 0 / med) else None in
    let ui := setHrBpm (Some (IZR (Math_round hr))) ui in
    setSnr (match q with
            | Some qv =>
                if truthy q then Some (IZR (Math_round (qv * 10)) / 10)
                else None
            | None => None
            end) ui
  else ui.

(** Line 320, with the baselines and the heart rate that the closure sees. *)
Definition focusScoreOf (hrBpm baselineHR baselineRMSSD rm : option R) : R :=
  let hrBase := nullish baselineHR 70 in
  let rmBase := nullish baselineRMSSD 40 in
  let hrZ :=
    if truthy hrBpm
    then (nullish hrBpm 0 - hrBase) / Math_max 5 (0.1 * hrBase) else 0 in
  let rmZ :=
    if truthy rm
    then (rmBase - nullish rm 0) / Math_max 10 (0.25 * rmBase) else 0 in
  Math_max 0 (Math_min 100 (IZR (Math_round (50 + 20 * hrZ + 30 * rmZ)))).

(** Line 312: the count cap of the rolling interval set. *)
Definition capIbis (l : list R) : list R :=
  if (20 <? length l)%nat then shift l else l.

(** Lines 308-322.  [snap] holds the React state as the closure captured it
    at render time; the setters act on the pending state [ui]. *)
Definition hrv (snap : Ui) (st : St) (ui : Ui) (fs : R) : St * Ui :=
  let '(newIBI, st) := detectPeakAndIBI st fs in
  match newIBI with
  | Some ibi =>
      if truthy newIBI then
        let st := set_ibis (capIbis (ibis st ++ [ibi])) st in
        let rm := computeRMSSD (ibis st) in
        let ui :=
          match rm with
          | Some r => setRmssd (Some (IZR (Math_round r))) ui
          | None => ui
          end in
        let score :=
          focusScoreOf (hrBpm snap) (baselineHR snap) (baselineRMSSD snap) rm in
        (st, setFocusScore (Some score) ui)
      else (st, ui)
  | None => (st, ui)
  end.

Definition pushSample (snap : Ui) (st : St) (ui : Ui) (tSec gMean fs : R)
  : St * Ui :=
  let st := ingest st tSec gMean fs in
  let ui := spectral st ui in
  hrv snap st ui fs.

(** ** The main loop (lines 193-278) *)

(** Lines 198-207: the sampling clock and the per-frame filter setup.
    Returns the state and the sampling rate [fs] of this frame. *)
Definition clockTick (st : St) (now : R) : St * R :=
  let dt := (now - lastTs st) / 1000 in
  let instFps := 1 / Math_max dt (1 / 120) in
  let fpsEMA' := fpsEMA st * 0.9 + instFps * 0.1 in
  let fs := Math_max 10 (Math_min 90 (IZR (Math_round fpsEMA'))) in
  ({| lastTs := now; fpsEMA := fpsEMA';
      t := t st; gRaw := gRaw st; bvp := bvp st; maxBufSec := maxBufSec st;
      hp := makeBiquadHP fs 0.7; lp := makeBiquadLP fs 3.0;
      lastPeakT := lastPeakT st; ibis := ibis st |}, fs).

(** One call of [loop].  [running] is the flag tested on line 196; [frame]
    is the brightness of this frame: the synthetic value in demo mode, the
    mean of the region of interest otherwise, [None] when the video is not
    ready yet (line 220). *)
Definition loop (running : bool) (snap : Ui) (st : St) (ui : Ui)
  (now : R) (frame : option R) : St * Ui :=
  if negb running then (st, ui)
  else
    let '(st, fs) := clockTick st now in
    match frame with
    | Some gMean => pushSample snap st ui (now / 1000) gMean fs
    | None => (st, ui)
    end.

(** ** Display helpers and calibration (lines 186-191, 471-476, 567) *)

Definition clamp01 (v : R) : R := clamp v 0 1.

(** The two percentages of [SympaParasympaBars]: [(paras, sympa)]. *)
Definition sympaParasympa (rmssd : option R) (baselineRMSSD : R) : Z * Z :=
  let rm := nullish rmssd baselineRMSSD in
  let p := clamp01 (rm / (baselineRMSSD * 1.6)) in
  let paras := Math_round (p * 100) in
  (paras, (100 - paras)%Z).

(** [calibrateBaseline]: the current metrics become the baselines, provided
    both are truthy. *)
Definition calibrateBaseline (ui : Ui) : Ui :=
  if truthy (hrBpm ui) && truthy (rmssd ui) then
    {| hrBpm := hrBpm ui; rmssd := rmssd ui; focusScore := focusScore ui;
       snr := snr ui;
       baselineHR := hrBpm ui; baselineRMSSD := rmssd ui |}
  else ui.

(** ** Region of interest and frame sampling (lines 224-268) *)

(** A normalised rectangle [{x, y, w, h}]. *)
Record Rect : Type := mkRect { rect_x : R; rect_y : R; rect_w : R; rect_h : R }.

(** Lines 229-234: the region of interest cut out of a detected face. *)
Definition roiFromFace (roiNorm : Rect) : Rect :=
  let x := rect_x roiNorm in
  let y := rect_y roiNorm in
  let w := rect_w roiNorm in
  let h := rect_h roiNorm in
  let rx := x + w * 0.2 in
  let ry := y + h * 0.18 in
  let rw := w * 0.6 in
  let rh := h * 0.30 in
  {| rect_x := clamp rx 0 (1 - rw); rect_y := clamp ry 0 (1 - rh);
     rect_w := rw; rect_h := rh |}.

(** The loop of lines 264-266: [i] runs over [0, stride, 2*stride, ...]
    below [img.length] and the byte at [i + 1] (green) is added to [gSum].
    [fuel] bounds the number of iterations. *)
Fixpoint greenLoop (img : list Z) (stride i : nat) (gSum : Z) (fuel : nat)
  : Z :=
  match fuel with
  | O => gSum
  | S fuel' =>
      if (i <? length img)%nat
      then greenLoop img stride (i + stride) (gSum + nth (i + 1) img 0%Z)%Z
                     fuel'
      else gSum
  end.

(** Line 263: [Math.max(1, Math.floor((c.width * c.height) / 5000))], on
    integer canvas sizes. *)
Definition samplingStep (width height : nat) : nat :=
  Nat.max 1 (width * height / 5000).

(** Lines 261-268: the mean green value of the RGBA bytes [img] of a canvas
    of [width] by [height] pixels ([img.length] is [4 * width * height], so
    [i + 1] is in range whenever [i] is).  The stride [4 * step] is at
    least 4, so [img.length] iterations are always enough. *)
Definition greenMean (width height : nat) (img : list Z) : R :=
  let step := samplingStep width height in
  let gSum := greenLoop img (4 * step) 0 0%Z (length img) in
  let n := (length img / (4 * step))%nat in
  IZR gSum / INR n.

(** ** Waveform drawing ([src/drawWaveform.js]) *)

(** The points of the path that [drawWaveform] strokes on a canvas of the
    given size: the first by [moveTo], the others by [lineTo].  Nothing is
    drawn for an empty segment. *)
Definition waveformPoints (width height : R) (segment : list R)
  : list (R * R) :=
  match segment with
  | [] => []
  | s0 :: _ =>
      let min := fold_left (fun min val => if ltb val min then val else min)
                           segment s0 in
      let max := fold_left (fun max val => if gtb val max then val else max)
                           segment s0 in
      let range := if eqb (max - min) 0 then 1 else max - min in
      map (fun i =>
             (INR i / (INR (length segment) - 1) * width,
              height - (nth i segment 0 - min) / range * height))
          (seq 0 (length segment))
  end.

(** ** Forehead region ([src/useFaceMesh.js], lines 5-20 and 83-123) *)

Definition FOREHEAD_LANDMARKS : list nat :=
  [9; 10; 151; 337; 299; 333; 298; 301;
   251; 284; 332; 297; 338; 389; 356; 127; 162;
   70; 63; 105; 66; 107; 300; 293; 334; 296; 336]%nat.

(** The bounding-box scan of lines 88-94, from [(1, 0, 1, 0)]. *)
Definition boundsOf (points : list (R * R)) : R * R * R * R :=
  fold_left (fun '(minX, maxX, minY, maxY) point =>
               (Math_min minX (fst point), Math_max maxX (fst point),
                Math_min minY (snd point), Math_max maxY (snd point)))
            points (1, 0, 1, 0).

(** The box passed to [setForeheadBox].  [landmarks i] is the normalised
    [(x, y)] of landmark [i] of the detected face. *)
Definition foreheadBox (landmarks : nat -> R * R) : Rect :=
  let foreheadPoints := map landmarks FOREHEAD_LANDMARKS in
  let '(minX, maxX, minY, maxY) := boundsOf foreheadPoints in
  let glabellaY := snd (landmarks 9%nat) in
  let eyebrowToTop := glabellaY - minY in
  let extendedTop := glabellaY - eyebrowToTop * 1.2 in
  let centerX := (minX + maxX) / 2 in
  let originalWidth := maxX - minX in
  let narrowedWidth := originalWidth * 0.5 in
  let minX := Math_max 0 (centerX - narrowedWidth / 2) in
  let maxX := Math_min 1 (centerX + narrowedWidth / 2) in
  let minY := Math_max 0 extendedTop in
  let maxY := Math_min 1 glabellaY in
  {| rect_x := minX; rect_y := minY;
     rect_w := maxX - minX; rect_h := maxY - minY |}.

(** * Vocabulary of the statements *)

(** The specification's own wording of some quantities, the predicates of
    the buffer invariant, runs over several ticks, and the concrete states
    used as examples. *)

(** The effective sampling rate in the words of the specification:
    [round(clamp(fpsEMA, 10, 90))]. *)
Definition specRate (fpsEMA : R) : R := IZR (Math_round (clamp fpsEMA 10 90)).

(** The rates that the clock produces along a sequence of arrival times. *)
Fixpoint clockRun (st : St) (nows : list R) : list R :=
  match nows with
  | [] => []
  | now :: nows' =>
      let '(st', fs) := clockTick st now in fs :: clockRun st' nows'
  end.

(** The score in the words of the specification. *)
Definition specFocusScore (hr rm hrBase rmBase : R) : R :=
  let hrZ := (hr - hrBase) / Rmax 5 (0.1 * hrBase) in
  let rmZ := (rmBase - rm) / Rmax 10 (0.25 * rmBase) in
  clamp (IZR (Math_round (50 + 20 * hrZ + 30 * rmZ))) 0 100.

(** RMSSD in the words of the specification: intervals in milliseconds,
    successive first differences taken by index, squared, averaged, square
    root. *)
Definition specRmssd (intervalsSeconds : list R) : R :=
  let ms := map (fun s => s * 1000) intervalsSeconds in
  let differences :=
    map (fun i => nth (S i) ms 0 - nth i ms 0) (seq 0 (length ms - 1)) in
  let squares := map (fun d => d * d) differences in
  sqrt (sum squares / INR (length squares)).

(** The intervals of the self-test (line 344). *)
Definition selfTestIbis : list R := [1.0; 1.0; 1.0; 1.04; 0.96].

(** The two-sample input history and two-sample output history of a
    filter. *)
Definition history (f : Biquad) : R * R * R * R := (x1 f, x2 f, y1 f, y2 f).

(** The state with other filter objects in [hp] and [lp]. *)
Definition set_filters (h l : Biquad) (st : St) : St :=
  {| lastTs := lastTs st; fpsEMA := fpsEMA st;
     t := t st; gRaw := gRaw st; bvp := bvp st; maxBufSec := maxBufSec st;
     hp := h; lp := l; lastPeakT := lastPeakT st; ibis := ibis st |}.

(** [timestamps[i] < timestamps[i+1]] for every [i]. *)
Definition strictlyIncreasing (l : list R) : Prop :=
  forall i a b, nth_error l i = Some a -> nth_error l (S i) = Some b -> a < b.

(** [timestamps[last] - timestamps[0] <= m] for a non-empty buffer. *)
Definition spanWithin (l : list R) (m : R) : Prop :=
  l <> [] -> last l 0 - hd 0 l <= m.

(** The number of entries that the head trim drops. *)
Fixpoint trimCount (cutoff : R) (t0 : list R) : nat :=
  match t0 with
  | [] => 0
  | a :: t' => if ltb a cutoff then S (trimCount cutoff t') else 0
  end.

(** A tick as [pushSample] receives it. *)
Record Tick : Type := mkTick { tickT : R; tickG : R; tickFs : R }.

(** [pushSample] along a sequence of ticks. *)
Fixpoint pushAll (snap : Ui) (st : St) (ui : Ui) (ticks : list Tick)
  : St * Ui :=
  match ticks with
  | [] => (st, ui)
  | k :: ticks' =>
      let '(st', ui') :=
        pushSample snap st ui (tickT k) (tickG k) (tickFs k) in
      pushAll snap st' ui' ticks'
  end.

(** The state after a first tick at time 2. *)
Definition afterFirstTick : St :=
  fst (pushSample initialUi initialSt initialUi 2 128 30).

(** The React state after an earlier estimate of 72 bpm with quality 2.5. *)
Definition estimatedUi : Ui :=
  setSnr (Some 2.5) (setHrBpm (Some 72) initialUi).

(** A buffer with pulse peaks at 1.0 s and 1.332 s, the first of which has
    been accepted. *)
Definition refractoryState : St :=
  {| lastTs := 1400; fpsEMA := 30;
     t := [0.8; 0.85; 0.9; 0.95; 1.0; 1.1; 1.2; 1.332; 1.4];
     gRaw := [126; 126; 126; 127; 131; 128; 129; 131; 128];
     bvp := [-2; -2; -2; -1; 3; 0; 1; 3; 0];
     maxBufSec := 60;
     hp := makeBiquadHP 30 0.7; lp := makeBiquadLP 30 3.0;
     lastPeakT := 1.0; ibis := [] |}.

(** A filter with the given input and output history. *)
Definition set_history (f : Biquad) (x1' x2' y1' y2' : R) : Biquad :=
  {| bz0 := bz0 f; bz1 := bz1 f; bz2 := bz2 f; az1 := az1 f; az2 := az2 f;
     x1 := x1'; x2 := x2'; y1 := y1'; y2 := y2' |}.

(** The stability triangle of a second-order recursion
    [y = ... - az1 * y1 - az2 * y2]: both poles lie inside the unit
    circle. *)
Definition stable (f : Biquad) : Prop :=
  -1 < az2 f < 1 /\ Rabs (az1 f) < 1 + az2 f.

(** The three buffers are aligned: one entry of each per retained tick. *)
Definition aligned (st : St) : Prop :=
  length (gRaw st) = length (t st) /\ length (bvp st) = length (t st).

(** The rolling interval set is within its cap and holds only intervals
    longer than the refractory period. *)
Definition ibisOk (st : St) : Prop :=
  (length (ibis st) <= 20)%nat /\ Forall (fun ibi => 0.33 < ibi) (ibis st).

(** The number of iterations of the loop of lines 264-266 on [len] bytes:
    the quotient, and one more when the stride does not divide [len]. *)
Definition sampleCount (len stride : nat) : nat :=
  if (len mod stride =? 0)%nat then (len / stride)%nat
  else S (len / stride).

(** The green bytes that the loop reads: one every [stride] bytes. *)
Definition greenSamples (img : list Z) (stride count : nat) : list Z :=
  map (fun m => nth (stride * m + 1) img 0%Z) (seq 0 count).

(** A point lies in the unit square. *)
Definition inUnitSquare (p : R * R) : Prop :=
  0 <= fst p <= 1 /\ 0 <= snd p <= 1.

(** A buffer of six equal filtered samples. *)
Definition flatState : St :=
  {| lastTs := 1200; fpsEMA := 30;
     t := [1.0; 1.033; 1.066; 1.1; 1.133; 1.166];
     gRaw := [128; 128; 128; 128; 128; 128];
     bvp := [3; 3; 3; 3; 3; 3];
     maxBufSec := 60;
     hp := makeBiquadHP 30 0.7; lp := makeBiquadLP 30 3.0;
     lastPeakT := -1; ibis := [] |}.

(** Three frames through [loop] from the initial state: brightness 128 at
    1000 ms, 130 at 1033 ms, 126 at 1066 ms. *)
Definition tick1 : St * Ui :=
  loop true initialUi initialSt initialUi 1000 (Some 128).
Definition tick2 : St * Ui :=
  loop true initialUi (fst tick1) (snd tick1) 1033 (Some 130).
Definition tick3 : St * Ui :=
  loop true initialUi (fst tick2) (snd tick2) 1066 (Some 126).

(** * Properties *)

(** ** Comparisons and rounding *)

Lemma ltb_true (a b : R) : ltb a b = true <-> a < b.
Proof. unfold ltb; destruct (Rlt_dec a b); split; intros; congruence || lra. Qed.

Lemma ltb_false (a b : R) : ltb a b = false <-> b <= a.
Proof. unfold ltb; destruct (Rlt_dec a b); split; intros; congruence || lra. Qed.

Lemma leb_true (a b : R) : leb a b = true <-> a <= b.
Proof. unfold leb; destruct (Rle_dec a b); split; intros; congruence || lra. Qed.

Lemma leb_false (a b : R) : leb a b = false <-> b < a.
Proof. unfold leb; destruct (Rle_dec a b); split; intros; congruence || lra. Qed.

Lemma gtb_true (a b : R) : gtb a b = true <-> b < a.
Proof. apply ltb_true. Qed.

Lemma gtb_false (a b : R) : gtb a b = false <-> a <= b.
Proof. apply ltb_false. Qed.

Lemma eqb_true (a b : R) : eqb a b = true <-> a = b.
Proof. unfold eqb; destruct (Req_dec_T a b); split; intros; congruence. Qed.

Lemma truthy_Some (x : R) : truthy (Some x) = true <-> x <> 0.
Proof.
  unfold truthy, eqb; destruct (Req_dec_T x 0); simpl; split; intros;
    congruence.
Qed.

(** Decides a closed comparison between real constants. *)
Ltac js_cmp :=
  repeat match goal with
    | |- context [ltb ?a ?b] =>
        first [ replace (ltb a b) with true
                  by (symmetry; apply ltb_true; lra)
              | replace (ltb a b) with false
                  by (symmetry; apply ltb_false; lra) ]
    | |- context [gtb ?a ?b] =>
        first [ replace (gtb a b) with true
                  by (symmetry; apply gtb_true; lra)
              | replace (gtb a b) with false
                  by (symmetry; apply gtb_false; lra) ]
    | |- context [leb ?a ?b] =>
        first [ replace (leb a b) with true
                  by (symmetry; apply leb_true; lra)
              | replace (leb a b) with false
                  by (symmetry; apply leb_false; lra) ]
    end.

Lemma Math_round_IZR (n : Z) : Math_round (IZR n) = n.
Proof.
  unfold Math_round; symmetry; apply Int_part_spec; lra.
Qed.

Lemma Int_part_mono (x y : R) : x <= y -> (Int_part x <= Int_part y)%Z.
Proof.
  intros Hxy.
  destruct (base_Int_part x) as [Hx _], (base_Int_part y) as [_ Hy].
  destruct (Z_le_gt_dec (Int_part x) (Int_part y)) as [H | H]; [exact H |].
  assert (Hz : (Int_part y + 1 <= Int_part x)%Z) by lia.
  apply IZR_le in Hz; rewrite plus_IZR in Hz; lra.
Qed.

Lemma Math_round_mono (x y : R) : x <= y -> (Math_round x <= Math_round y)%Z.
Proof. intros H; apply Int_part_mono; lra. Qed.

Lemma clamp_bounds (v lo hi : R) : lo <= hi -> lo <= clamp v lo hi <= hi.
Proof.
  intros H; unfold clamp, Math_max, Math_min.
  apply Rmax_case_strong; apply Rmin_case_strong; intros; lra.
Qed.

(** Rounding and clamping to integer bounds commute. *)
Lemma clamp_round_comm (x : R) (lo hi : Z) :
  (lo <= hi)%Z ->
  clamp (IZR (Math_round x)) (IZR lo) (IZR hi)
  = IZR (Math_round (clamp x (IZR lo) (IZR hi))).
Proof.
  intros Hlh. apply IZR_le in Hlh.
  unfold clamp, Math_max, Math_min.
  destruct (Rle_dec x (IZR hi)) as [Hxh | Hxh].
  - rewrite (Rmin_right (IZR hi) x) by exact Hxh.
    assert (Hrh : IZR (Math_round x) <= IZR hi).
    { apply IZR_le; rewrite <- (Math_round_IZR hi);
        apply Math_round_mono; exact Hxh. }
    rewrite (Rmin_right (IZR hi) _) by exact Hrh.
    destruct (Rle_dec (IZR lo) x) as [Hlx | Hlx].
    + rewrite (Rmax_right (IZR lo) x) by exact Hlx.
      apply Rmax_right, IZR_le.
      rewrite <- (Math_round_IZR lo) at 1; apply Math_round_mono; exact Hlx.
    + rewrite (Rmax_left (IZR lo) x) by lra.
      rewrite Math_round_IZR. apply Rmax_left, IZR_le.
      rewrite <- (Math_round_IZR lo); apply Math_round_mono; lra.
  - rewrite (Rmin_left (IZR hi) x) by lra.
    rewrite (Rmax_right (IZR lo) (IZR hi)) by exact Hlh.
    rewrite Math_round_IZR.
    assert (Hrh : IZR hi <= IZR (Math_round x)).
    { apply IZR_le; rewrite <- (Math_round_IZR hi) at 1;
        apply Math_round_mono; lra. }
    rewrite (Rmin_left (IZR hi) _) by exact Hrh.
    apply Rmax_right; exact Hlh.
Qed.

(** ** Sampling clock *)

Lemma clockTick_rate_bounds (st : St) (now : R) :
  10 <= snd (clockTick st now) <= 90.
Proof. unfold clockTick; simpl; apply (clamp_bounds _ 10 90); lra. Qed.

Lemma clockRun_bounds (nows : list R) :
  forall st, Forall (fun fs => 10 <= fs <= 90) (clockRun st nows).
Proof.
  induction nows as [| now nows IH]; intros st; cbn [clockRun].
  - constructor.
  - pose proof (clockTick_rate_bounds st now) as Hb.
    destruct (clockTick st now) as [st' fs]; constructor; [exact Hb | apply IH].
Qed.

(** C8.  One clock tick, from any state and for any arrival time [now]
    ([dt = 0] and negative [dt] included): the divisor of the instantaneous
    rate is positive, [fpsEMA] follows the moving-average recurrence, the
    rate computed by the loop is [round(clamp(fpsEMA, 10, 90))], and it lies
    in [10, 90]; hence every rate along every sequence of arrival times lies
    in [10, 90]. *)
Theorem sampling_clock_rate (st : St) (now : R) :
  let dt := (now - lastTs st) / 1000 in
  let instantaneousRate := 1 / Rmax dt (1 / 120) in
  let st' := fst (clockTick st now) in
  let fs := snd (clockTick st now) in
  0 < Rmax dt (1 / 120)
  /\ lastTs st' = now
  /\ fpsEMA st' = fpsEMA st * 0.9 + instantaneousRate * 0.1
  /\ fs = specRate (fpsEMA st')
  /\ 10 <= fs <= 90
  /\ forall nows, Forall (fun fs => 10 <= fs <= 90) (clockRun st nows).
Proof.
  cbv zeta; split; [| split; [| split; [| split; [| split]]]].
  - apply Rlt_le_trans with (1 / 120); [lra | apply Rmax_r].
  - reflexivity.
  - reflexivity.
  - unfold specRate, clockTick; simpl.
    apply (clamp_round_comm _ 10 90); lia.
  - apply clockTick_rate_bounds.
  - intros nows; apply clockRun_bounds.
Qed.

(** ** Focus score *)

Lemma focusScoreOf_bounds (hr bHR bRM rm : option R) :
  0 <= focusScoreOf hr bHR bRM rm <= 100.
Proof. unfold focusScoreOf; apply (clamp_bounds _ 0 100); lra. Qed.

Lemma hrv_focusScore (snap : Ui) (st : St) (ui : Ui) (fs : R) :
  focusScore (snd (hrv snap st ui fs)) = focusScore ui
  \/ exists rm,
      focusScore (snd (hrv snap st ui fs))
      = Some (focusScoreOf (hrBpm snap) (baselineHR snap)
                           (baselineRMSSD snap) rm).
Proof.
  unfold hrv.
  destruct (detectPeakAndIBI st fs) as [[ibi |] st1]; [| left; reflexivity].
  destruct (truthy (Some ibi)); [| left; reflexivity].
  right; eexists; reflexivity.
Qed.

Lemma spectral_focusScore (st : St) (ui : Ui) :
  focusScore (spectral st ui) = focusScore ui.
Proof.
  unfold spectral.
  destruct (getLatestSegment (bvp st) (t st) 12) as [segment fsUsed].
  destruct (gtb _ _); [| reflexivity].
  destruct (goertzelSpectrum _ _ _ _) as [freqs powers]; reflexivity.
Qed.

(** C9.  The score that [pushSample] computes lies in [0, 100] for every
    heart rate, RMSSD and pair of baselines (absent ones included); for a
    non-zero heart rate and RMSSD it is the specification's
    [clamp(round(50 + 20*hrZ + 30*rmZ), 0, 100)]; and a focus score set by
    [pushSample] is always such a value. *)
Theorem focus_score_bounded (hr rm bHR bRM : option R) :
  0 <= focusScoreOf hr bHR bRM rm <= 100
  /\ (forall h r : R, hr = Some h -> rm = Some r -> h <> 0 -> r <> 0 ->
      focusScoreOf hr bHR bRM rm
      = specFocusScore h r (nullish bHR 70) (nullish bRM 40))
  /\ (forall snap st ui tSec gMean fs,
        let ui' := snd (pushSample snap st ui tSec gMean fs) in
        focusScore ui' = focusScore ui
        \/ exists s, focusScore ui' = Some s /\ 0 <= s <= 100).
Proof.
  split; [apply focusScoreOf_bounds | split].
  - intros h r -> -> Hh Hr. unfold focusScoreOf, specFocusScore.
    apply truthy_Some in Hh, Hr. rewrite Hh, Hr. reflexivity.
  - intros snap st ui tSec gMean fs; cbv zeta; unfold pushSample.
    destruct (hrv_focusScore snap (ingest st tSec gMean fs)
                (spectral (ingest st tSec gMean fs) ui) fs) as [-> | [rm' ->]].
    + left; apply spectral_focusScore.
    + right; eexists; split; [reflexivity | apply focusScoreOf_bounds].
Qed.

Lemma focus_score_bounded_witness :
  focusScoreOf (Some 80) None None (Some 30)
  = specFocusScore 80 30 70 40.
Proof.
  apply (proj1 (proj2 (focus_score_bounded (Some 80) (Some 30) None None))
           80 30); [reflexivity | reflexivity | lra | lra].
Defined.

(** ** RMSSD *)

Lemma diffs_by_index (l : list R) :
  diffs l = map (fun i => nth (S i) l 0 - nth i l 0) (seq 0 (length l - 1)).
Proof.
  induction l as [| a [| b l'] IH]; [reflexivity | reflexivity |].
  change (diffs (a :: b :: l')) with ((b - a) :: diffs (b :: l')).
  rewrite IH.
  replace (length (a :: b :: l') - 1)%nat with (S (length (b :: l') - 1))
    by (simpl; lia).
  cbn [seq map nth]. f_equal.
  rewrite <- seq_shift, map_map. reflexivity.
Qed.

Lemma diffs_length (l : list R) : length (diffs l) = (length l - 1)%nat.
Proof. rewrite diffs_by_index, length_map, length_seq; reflexivity. Qed.

Lemma hrv_rmssd (snap : Ui) (st : St) (ui : Ui) (fs : R) :
  rmssd (snd (hrv snap st ui fs)) = rmssd ui
  \/ exists r,
      computeRMSSD (ibis (fst (hrv snap st ui fs))) = Some r
      /\ rmssd (snd (hrv snap st ui fs)) = Some (IZR (Math_round r)).
Proof.
  unfold hrv.
  destruct (detectPeakAndIBI st fs) as [[ibi |] st1]; [| left; reflexivity].
  destruct (truthy (Some ibi)); [| left; reflexivity].
  cbn [fst snd set_ibis ibis].
  destruct (computeRMSSD (capIbis (ibis st1 ++ [ibi]))) as [r |].
  - right; exists r; split; reflexivity.
  - left; reflexivity.
Qed.

(** C7.  With at least 3 intervals [computeRMSSD] returns the square root
    of the mean squared successive difference of the intervals in
    milliseconds; with exactly 3 intervals the mean is over exactly 2
    differences; with fewer than 3 it returns no value ([NaN]), and the
    displayed RMSSD changes only to a value that [computeRMSSD] produced. *)
Theorem rmssd_definition (ibisSec : list R) :
  ((3 <= length ibisSec)%nat ->
     computeRMSSD ibisSec = Some (specRmssd ibisSec))
  /\ (forall a b c, ibisSec = [a; b; c] ->
        length (diffs (map (fun s => s * 1000) ibisSec)) = 2%nat
        /\ computeRMSSD ibisSec
           = Some (sqrt (((b * 1000 - a * 1000) * (b * 1000 - a * 1000)
                          + (c * 1000 - b * 1000) * (c * 1000 - b * 1000))
                         / 2)))
  /\ ((length ibisSec < 3)%nat -> computeRMSSD ibisSec = None)
  /\ (forall snap st ui fs,
        rmssd (snd (hrv snap st ui fs)) = rmssd ui
        \/ exists r,
            computeRMSSD (ibis (fst (hrv snap st ui fs))) = Some r
            /\ rmssd (snd (hrv snap st ui fs)) = Some (IZR (Math_round r))).
Proof.
  split; [| split; [| split]].
  - intros Hlen. unfold computeRMSSD, specRmssd.
    apply Nat.ltb_ge in Hlen; rewrite Hlen.
    rewrite diffs_by_index. reflexivity.
  - intros a b c ->. split; [reflexivity |].
    unfold computeRMSSD; cbn [length Nat.ltb Nat.leb map diffs].
    unfold sum; cbn [fold_left INR]. do 2 f_equal. lra.
  - intros Hlen. unfold computeRMSSD.
    apply Nat.ltb_lt in Hlen; rewrite Hlen. reflexivity.
  - intros snap st ui fs; apply hrv_rmssd.
Qed.

Lemma rmssd_definition_witness :
  computeRMSSD [1; 2; 4] = Some (specRmssd [1; 2; 4])
  /\ (length (diffs (map (fun s => s * 1000) [1; 2; 4])) = 2%nat
      /\ computeRMSSD [1; 2; 4]
         = Some (sqrt (((2 * 1000 - 1 * 1000) * (2 * 1000 - 1 * 1000)
                        + (4 * 1000 - 2 * 1000) * (4 * 1000 - 2 * 1000))
                       / 2)))
  /\ computeRMSSD [1; 2] = None.
Proof.
  split; [| split].
  - apply (proj1 (rmssd_definition [1; 2; 4])); simpl; lia.
  - apply (proj1 (proj2 (rmssd_definition [1; 2; 4])) 1 2 4); reflexivity.
  - apply (proj1 (proj2 (proj2 (rmssd_definition [1; 2])))); simpl; lia.
Defined.

Lemma selfTest_value : computeRMSSD selfTestIbis = Some (sqrt 2000).
Proof.
  unfold computeRMSSD, selfTestIbis; cbn [length Nat.ltb Nat.leb map diffs].
  unfold sum; cbn [fold_left INR]. do 2 f_equal. lra.
Qed.

Lemma sqrt_2000_bounds : 44.72 < sqrt 2000 < 44.73.
Proof.
  split.
  - apply Rle_lt_trans with (sqrt (44.72 * 44.72));
      [rewrite sqrt_square; lra | apply sqrt_lt_1; lra].
  - apply Rlt_le_trans with (sqrt (44.73 * 44.73));
      [apply sqrt_lt_1; lra | rewrite sqrt_square; lra].
Qed.

(** C4, as amended.  On the self-test intervals [1.0, 1.0, 1.0, 1.04, 0.96] s
    the successive differences are 0, 0, 40, -80 ms, their mean square is
    2000 and [computeRMSSD] returns its square root, between 44.72 and
    44.73 ms. *)
Theorem rmssd_self_test_value :
  Forall2 eq (diffs (map (fun s => s * 1000) selfTestIbis)) [0; 0; 40; -80]
  /\ computeRMSSD selfTestIbis = Some (sqrt 2000)
  /\ 44.72 < sqrt 2000 < 44.73.
Proof.
  split; [| split; [exact selfTest_value | exact sqrt_2000_bounds]].
  unfold selfTestIbis; cbn [map diffs].
  repeat constructor; lra.
Qed.

(** C4, as stated, fails: the result is not within 5 ms of 28.3 (the
    tolerance of the self-test on line 347), and the last difference is not
    -40 ms. *)
Lemma rmssd_self_test_not_28 :
  ~ (exists v, computeRMSSD selfTestIbis = Some v /\ Rabs (v - 28.3) <= 5)
  /\ nth 3 (diffs (map (fun s => s * 1000) selfTestIbis)) 0 <> -40.
Proof.
  split.
  - intros [v [Hv Habs]]. rewrite selfTest_value in Hv.
    injection Hv as <-. pose proof sqrt_2000_bounds as Hb.
    rewrite Rabs_right in Habs by lra. lra.
  - unfold selfTestIbis; cbn [map diffs nth]. lra.
Qed.

(** ** Filters: what [loop] does to the history *)

Lemma biquad_history (fs fc Q : R) (type : FilterType) :
  history (biquad fs fc Q type) = (0, 0, 0, 0).
Proof. destruct type; reflexivity. Qed.

Lemma step_fresh (f : Biquad) (x : R) :
  history f = (0, 0, 0, 0) -> fst (step f x) = bz0 f * x.
Proof.
  unfold history, step; intros [= -> -> -> ->]; simpl; lra.
Qed.

Lemma filterSample_output (st : St) (gRaw1 : list R) (gMean fs : R) :
  fst (fst (filterSample st gRaw1 gMean fs))
  = fst (step (lp st)
           (fst (step (hp st)
                   (gMean - movingAverageTail gRaw1
                              (Z.max 5 (Math_floor (1.0 * fs))))))).
Proof. reflexivity. Qed.

(** C1, as the code has it.  [loop] installs two filters fresh from
    [biquad] before every sample, so at every tick both histories are zero
    when [step] runs: the value appended to [bvp] is the input scaled by the
    two leading coefficients, and the whole result of a tick is the same
    whatever filters (coefficients and history) the previous tick left
    behind. *)
Theorem loop_filter_history_is_zeroed (st : St) (now : R) :
  let st' := fst (clockTick st now) in
  let fs := snd (clockTick st now) in
  hp st' = makeBiquadHP fs 0.7
  /\ lp st' = makeBiquadLP fs 3.0
  /\ history (hp st') = (0, 0, 0, 0)
  /\ history (lp st') = (0, 0, 0, 0)
  /\ (forall gRaw1 gMean,
        fst (fst (filterSample st' gRaw1 gMean fs))
        = bz0 (lp st')
          * (bz0 (hp st')
             * (gMean
                - movingAverageTail gRaw1
                    (Z.max 5 (Math_floor (1.0 * fs))))))
  /\ (forall snap ui frame h l,
        loop true snap (set_filters h l st) ui now frame
        = loop true snap st ui now frame).
Proof.
  cbv zeta.
  assert (Hh : history (hp (fst (clockTick st now))) = (0, 0, 0, 0))
    by apply biquad_history.
  assert (Hl : history (lp (fst (clockTick st now))) = (0, 0, 0, 0))
    by apply biquad_history.
  split; [reflexivity | split; [reflexivity |]].
  split; [exact Hh | split; [exact Hl | split]].
  - intros gRaw1 gMean.
    rewrite filterSample_output, (step_fresh _ _ Hl), (step_fresh _ _ Hh).
    reflexivity.
  - intros snap ui frame h l. reflexivity.
Qed.

(** ** Buffers: appending and trimming *)

Lemma skipn_tl {A : Type} (k : nat) (l : list A) :
  skipn k (tl l) = skipn (S k) l.
Proof. destruct l; [rewrite !skipn_nil |]; reflexivity. Qed.

Lemma last_skipn (k : nat) (l : list R) (d : R) :
  skipn k l <> [] -> last (skipn k l) d = last l d.
Proof.
  revert l; induction k as [| k IH]; intros [| a l] H; try reflexivity.
  cbn [skipn] in *. rewrite IH by exact H.
  destruct l as [| b l]; [rewrite skipn_nil in H; congruence | reflexivity].
Qed.

Lemma strictlyIncreasing_skipn (k : nat) (l : list R) :
  strictlyIncreasing l -> strictlyIncreasing (skipn k l).
Proof.
  intros H i a b Ha Hb. rewrite nth_error_skipn in Ha, Hb.
  apply (H (k + i)%nat); [exact Ha |].
  replace (S (k + i)) with (k + S i)%nat by lia; exact Hb.
Qed.

(** The head trim drops the same prefix from the three arrays. *)
Lemma trimHead_skipn (cutoff : R) (t0 : list R) :
  forall g b,
    trimHead cutoff t0 g b
    = (skipn (trimCount cutoff t0) t0, skipn (trimCount cutoff t0) g,
       skipn (trimCount cutoff t0) b).
Proof.
  induction t0 as [| a t' IH]; intros g b; [reflexivity |].
  cbn [trimHead trimCount]. destruct (ltb a cutoff); [| reflexivity].
  rewrite IH; unfold shift; rewrite !skipn_tl; reflexivity.
Qed.

(** It stops at the first timestamp that is not older than [cutoff]. *)
Lemma trimCount_spec (cutoff : R) (t0 : list R) :
  (trimCount cutoff t0 <= length t0)%nat
  /\ (skipn (trimCount cutoff t0) t0 <> [] ->
      cutoff <= hd 0 (skipn (trimCount cutoff t0) t0))
  /\ (forall i x, (i < trimCount cutoff t0)%nat ->
                  nth_error t0 i = Some x -> x < cutoff).
Proof.
  induction t0 as [| a t' [IHk [IHhd IHdrop]]].
  - repeat split; simpl; try lia; try congruence.
  - cbn [trimCount]. destruct (ltb a cutoff) eqn:E.
    + apply ltb_true in E. split; [simpl; lia | split].
      * exact IHhd.
      * intros [| i] x Hi Hx; [injection Hx as <-; exact E |].
        apply (IHdrop i); [lia | exact Hx].
    + apply ltb_false in E. split; [simpl; lia | split].
      * intros _; exact E.
      * intros i x Hi; lia.
Qed.

Lemma nth_error_last (l : list R) (a : R) :
  nth_error (a :: l) (length l) = Some (last (a :: l) 0).
Proof.
  revert a; induction l as [| b l IH]; intros a; [reflexivity |].
  change (nth_error (a :: b :: l) (length (b :: l)))
    with (nth_error (b :: l) (length l)).
  rewrite IH. reflexivity.
Qed.

(** With a non-negative retention the newest entry is never dropped. *)
Lemma trimCount_keeps_last (m : R) (l : list R) :
  0 <= m -> l <> [] -> (trimCount (last l 0 - m)%R l < length l)%nat.
Proof.
  intros Hm Hne. destruct l as [| a l]; [congruence |].
  destruct (trimCount_spec (last (a :: l) 0 - m) (a :: l)) as [Hk [_ Hdrop]].
  apply Nat.le_lteq in Hk. destruct Hk as [Hk | Hk]; [exact Hk | exfalso].
  assert (Hi : (length l < trimCount (last (a :: l) 0 - m)%R (a :: l))%nat)
    by (rewrite Hk; simpl; lia).
  pose proof (Hdrop (length l) _ Hi (nth_error_last l a)) as Hlast.
  lra.
Qed.

Lemma trimCount_span (m : R) (l : list R) :
  spanWithin (skipn (trimCount (last l 0 - m) l) l) m.
Proof.
  intros Hne. rewrite last_skipn by exact Hne.
  destruct (trimCount_spec (last l 0 - m) l) as [_ [Hhd _]].
  specialize (Hhd Hne). lra.
Qed.

(** After the head trim the span is within [maxBufSec] already, so the
    second loop of [trimBuffers] leaves the intervals alone. *)
Lemma evictIbis_after_trim (l : list R) (m : R) (ibis0 : list R) :
  spanWithin l m -> evictIbis l m ibis0 = ibis0.
Proof.
  intros Hspan. destruct ibis0 as [| x rest]; [reflexivity |].
  cbn [evictIbis]. destruct (1 <? length l)%nat eqn:E; [| reflexivity].
  assert (Hne : l <> []) by (destruct l; [discriminate E | congruence]).
  apply Hspan in Hne. apply leb_true in Hne. rewrite Hne. reflexivity.
Qed.

(** [trimBuffers] in closed form. *)
Lemma trimBuffers_eq (st : St) :
  let k := trimCount (last (t st) 0 - maxBufSec st) (t st) in
  trimBuffers st
  = {| lastTs := lastTs st; fpsEMA := fpsEMA st;
       t := skipn k (t st); gRaw := skipn k (gRaw st);
       bvp := skipn k (bvp st); maxBufSec := maxBufSec st;
       hp := hp st; lp := lp st; lastPeakT := lastPeakT st;
       ibis := ibis st |}.
Proof.
  cbv zeta. unfold trimBuffers. destruct st as [a b tt g bv m h l p ib].
  cbn [t gRaw bvp maxBufSec lastTs fpsEMA hp lp lastPeakT ibis].
  destruct tt as [| x tt']; [reflexivity |].
  rewrite trimHead_skipn.
  rewrite evictIbis_after_trim by apply trimCount_span.
  reflexivity.
Qed.

(** [ingest] in closed form: the tick is appended to the three buffers,
    then a common prefix is dropped. *)
Lemma ingest_eq (st : St) (tSec gMean fs : R) :
  let k := trimCount (tSec - maxBufSec st) (t st ++ [tSec]) in
  let y := filterSample st (gRaw st ++ [gMean]) gMean fs in
  ingest st tSec gMean fs
  = {| lastTs := lastTs st; fpsEMA := fpsEMA st;
       t := skipn k (t st ++ [tSec]);
       gRaw := skipn k (gRaw st ++ [gMean]);
       bvp := skipn k (bvp st ++ [fst (fst y)]);
       maxBufSec := maxBufSec st;
       hp := snd (fst y); lp := snd y;
       lastPeakT := lastPeakT st; ibis := ibis st |}.
Proof.
  cbv zeta. unfold ingest.
  destruct (filterSample st (gRaw st ++ [gMean]) gMean fs) as [[y2 hp'] lp'].
  rewrite trimBuffers_eq.
  cbn [t gRaw bvp maxBufSec lastTs fpsEMA hp lp lastPeakT ibis fst snd].
  rewrite last_last. reflexivity.
Qed.

Lemma detectPeakAndIBI_frame (st : St) (fs : R) :
  snd (detectPeakAndIBI st fs) = st
  \/ snd (detectPeakAndIBI st fs)
     = set_lastPeakT (nth (length (bvp st) - 2) (t st) 0) st.
Proof.
  unfold detectPeakAndIBI.
  destruct (length (bvp st) <? 5)%nat; [left; reflexivity |].
  destruct (isPeak st fs); [| left; reflexivity].
  destruct (ltb (lastPeakT st) 0 || gtb _ 0.33);
    [right | left]; reflexivity.
Qed.

(** [hrv] touches [lastPeakT] and [ibis] only; an interval leaves [ibis]
    only through the count cap. *)
Lemma hrv_frame (snap : Ui) (st : St) (ui : Ui) (fs : R) :
  let st' := fst (hrv snap st ui fs) in
  let ui' := snd (hrv snap st ui fs) in
  t st' = t st /\ gRaw st' = gRaw st /\ bvp st' = bvp st
  /\ maxBufSec st' = maxBufSec st
  /\ hrBpm ui' = hrBpm ui /\ snr ui' = snr ui
  /\ (ibis st' = ibis st
      \/ exists ibi, ibis st' = capIbis (ibis st ++ [ibi])).
Proof.
  cbv zeta. unfold hrv.
  pose proof (detectPeakAndIBI_frame st fs) as Hf.
  destruct (detectPeakAndIBI st fs) as [[ibi |] st1]; cbn [snd] in Hf.
  - destruct (truthy (Some ibi)).
    + destruct (computeRMSSD _);
        destruct Hf as [-> | ->]; cbn; repeat split; right; eexists;
        reflexivity.
    + destruct Hf as [-> | ->]; cbn; repeat split; left; reflexivity.
  - destruct Hf as [-> | ->]; cbn; repeat split; left; reflexivity.
Qed.

Lemma spectral_skip (st : St) (ui : Ui) :
  INR (length (fst (getLatestSegment (bvp st) (t st) 12)))
  <= snd (getLatestSegment (bvp st) (t st) 12) * 4 ->
  spectral st ui = ui.
Proof.
  unfold spectral.
  destruct (getLatestSegment (bvp st) (t st) 12) as [segment fsUsed].
  cbn [fst snd]. intros H. apply gtb_false in H. rewrite H. reflexivity.
Qed.

(** [pushSample] on the buffers, in closed form. *)
Lemma pushSample_buffers (snap : Ui) (st : St) (ui : Ui) (tSec gMean fs : R) :
  let st' := fst (pushSample snap st ui tSec gMean fs) in
  let k := trimCount (tSec - maxBufSec st) (t st ++ [tSec]) in
  let y := fst (fst (filterSample st (gRaw st ++ [gMean]) gMean fs)) in
  t st' = skipn k (t st ++ [tSec])
  /\ gRaw st' = skipn k (gRaw st ++ [gMean])
  /\ bvp st' = skipn k (bvp st ++ [y])
  /\ maxBufSec st' = maxBufSec st.
Proof.
  cbv zeta. unfold pushSample.
  destruct (hrv_frame snap (ingest st tSec gMean fs)
              (spectral (ingest st tSec gMean fs) ui) fs)
    as [-> [-> [-> [-> _]]]].
  rewrite ingest_eq. repeat split.
Qed.

Lemma ingest_ibis (st : St) (tSec gMean fs : R) :
  ibis (ingest st tSec gMean fs) = ibis st.
Proof. rewrite ingest_eq; reflexivity. Qed.

Lemma pushSample_ibis (snap : Ui) (st : St) (ui : Ui) (tSec gMean fs : R) :
  let st' := fst (pushSample snap st ui tSec gMean fs) in
  ibis st' = ibis st \/ exists ibi, ibis st' = capIbis (ibis st ++ [ibi]).
Proof.
  cbv zeta. unfold pushSample.
  destruct (hrv_frame snap (ingest st tSec gMean fs)
              (spectral (ingest st tSec gMean fs) ui) fs)
    as [_ [_ [_ [_ [_ [_ H]]]]]].
  rewrite ingest_ibis in H. exact H.
Qed.

Lemma pushAll_buffers (snap : Ui) (ticks : list Tick) :
  forall st ui,
    let st' := fst (pushAll snap st ui ticks) in
    maxBufSec st' = maxBufSec st
    /\ (spanWithin (t st) (maxBufSec st) -> spanWithin (t st') (maxBufSec st))
    /\ exists k, (k <= length (t st ++ map tickT ticks))%nat
                 /\ t st' = skipn k (t st ++ map tickT ticks).
Proof.
  induction ticks as [| tk ticks IH]; intros st ui; cbv zeta.
  - cbn [pushAll fst map]. split; [reflexivity | split; [tauto |]].
    exists 0%nat. rewrite app_nil_r. split; [lia | reflexivity].
  - cbn [pushAll map].
    pose proof (pushSample_buffers snap st ui (tickT tk) (tickG tk) (tickFs tk))
      as Hb. cbv zeta in Hb.
    destruct (pushSample snap st ui (tickT tk) (tickG tk) (tickFs tk))
      as [st1 ui1]. cbn [fst] in Hb. destruct Hb as [Ht [_ [_ Hm]]].
    destruct (IH st1 ui1) as [IHm [IHs [k2 [Hk2 IHt]]]].
    assert (Hs1 : spanWithin (t st1) (maxBufSec st1)).
    { rewrite Ht, Hm.
      pose proof (trimCount_span (maxBufSec st) (t st ++ [tickT tk])) as H.
      rewrite last_last in H. exact H. }
    set (k1 := trimCount (tickT tk - maxBufSec st) (t st ++ [tickT tk])) in *.
    assert (Hk1 : (k1 <= length (t st ++ [tickT tk]))%nat)
      by apply trimCount_spec.
    split; [congruence | split].
    + intros _. rewrite <- Hm. apply IHs. exact Hs1.
    + exists (k2 + k1)%nat. rewrite IHt, Ht.
      replace (t st ++ tickT tk :: map tickT ticks)
        with ((t st ++ [tickT tk]) ++ map tickT ticks)
        by (rewrite <- app_assoc; reflexivity).
      split.
      * rewrite Ht, length_app, length_skipn in Hk2.
        rewrite length_app. lia.
      * rewrite <- skipn_skipn,
          (skipn_app k1 (t st ++ [tickT tk]) (map tickT ticks)).
        replace (k1 - length (t st ++ [tickT tk]))%nat with 0%nat by lia.
        reflexivity.
Qed.

(** C10.  The head trim leaves a span of at most [maxBufSec], so the
    eviction loop of [trimBuffers] returns the intervals as they are, in
    every state; through a whole [pushSample] the interval set either stays
    the same or receives one new interval, and only the count cap (more
    than 20 entries: the oldest one is shifted out) removes anything. *)
Theorem trim_never_evicts_ibis (st : St) :
  spanWithin (t (trimBuffers st)) (maxBufSec st)
  /\ (forall ibis0, evictIbis (t (trimBuffers st)) (maxBufSec st) ibis0 = ibis0)
  /\ ibis (trimBuffers st) = ibis st
  /\ (forall snap ui tSec gMean fs,
        let st' := fst (pushSample snap st ui tSec gMean fs) in
        ibis st' = ibis st
        \/ exists ibi,
            ibis st' = capIbis (ibis st ++ [ibi])
            /\ (capIbis (ibis st ++ [ibi]) = ibis st ++ [ibi]
                \/ (20 < length (ibis st ++ [ibi]))%nat
                   /\ capIbis (ibis st ++ [ibi]) = tl (ibis st ++ [ibi]))).
Proof.
  assert (Hspan : spanWithin (t (trimBuffers st)) (maxBufSec st)).
  { rewrite trimBuffers_eq; cbn [t]. apply trimCount_span. }
  split; [exact Hspan | split; [| split]].
  - intros ibis0. apply evictIbis_after_trim; exact Hspan.
  - rewrite trimBuffers_eq; reflexivity.
  - intros snap ui tSec gMean fs; cbv zeta.
    destruct (pushSample_ibis snap st ui tSec gMean fs) as [H | [ibi H]];
      [left; exact H | right; exists ibi; split; [exact H |]].
    unfold capIbis. destruct (20 <? length (ibis st ++ [ibi]))%nat eqn:E.
    + right; split; [apply Nat.ltb_lt; exact E | reflexivity].
    + left; reflexivity.
Qed.

(** C2, as amended.  [pushSample] has no rejection path: whatever the
    timestamp, the tick is appended to the three buffers, after which a
    common prefix of old entries is dropped; with a non-negative retention
    the new entry itself is kept, so the buffer ends with the new
    timestamp. *)
Theorem pushSample_accepts_every_tick
  (snap : Ui) (st : St) (ui : Ui) (tSec gMean fs : R) :
  0 <= maxBufSec st ->
  let st' := fst (pushSample snap st ui tSec gMean fs) in
  exists k y,
    (k <= length (t st))%nat
    /\ t st' = skipn k (t st ++ [tSec])
    /\ gRaw st' = skipn k (gRaw st ++ [gMean])
    /\ bvp st' = skipn k (bvp st ++ [y])
    /\ t st' <> []
    /\ last (t st') 0 = tSec.
Proof.
  intros Hm; cbv zeta.
  destruct (pushSample_buffers snap st ui tSec gMean fs)
    as [Ht [Hg [Hb _]]].
  set (k := trimCount (tSec - maxBufSec st) (t st ++ [tSec])) in *.
  assert (Hk : (k < length (t st ++ [tSec]))%nat).
  { unfold k. replace tSec with (last (t st ++ [tSec]) 0) at 1
      by apply last_last.
    apply trimCount_keeps_last; [exact Hm |].
    intros H; apply app_eq_nil in H; destruct H; discriminate. }
  assert (Hne : skipn k (t st ++ [tSec]) <> []).
  { intros H. apply (f_equal (@length R)) in H.
    rewrite length_skipn in H; simpl in H; lia. }
  exists k; eexists. rewrite length_app in Hk; simpl in Hk.
  split; [lia | split; [exact Ht | split; [exact Hg | split; [exact Hb |]]]].
  rewrite Ht. split; [exact Hne |].
  rewrite last_skipn by exact Hne. apply last_last.
Qed.

Lemma pushSample_accepts_every_tick_witness :
  exists k y,
    (k <= length (t initialSt))%nat
    /\ t (fst (pushSample initialUi initialSt initialUi 1 128 30))
       = skipn k (t initialSt ++ [1])
    /\ gRaw (fst (pushSample initialUi initialSt initialUi 1 128 30))
       = skipn k (gRaw initialSt ++ [128])
    /\ bvp (fst (pushSample initialUi initialSt initialUi 1 128 30))
       = skipn k (bvp initialSt ++ [y])
    /\ t (fst (pushSample initialUi initialSt initialUi 1 128 30)) <> []
    /\ last (t (fst (pushSample initialUi initialSt initialUi 1 128 30))) 0
       = 1.
Proof.
  apply (pushSample_accepts_every_tick initialUi initialSt initialUi 1 128 30).
  simpl; lra.
Defined.

Lemma afterFirstTick_buffers :
  t afterFirstTick = [2] /\ maxBufSec afterFirstTick = 60
  /\ exists y, bvp afterFirstTick = [y].
Proof.
  unfold afterFirstTick.
  destruct (pushSample_buffers initialUi initialSt initialUi 2 128 30)
    as [-> [_ [-> ->]]].
  cbn [initialSt t bvp maxBufSec app trimCount]. js_cmp. cbn [skipn].
  split; [reflexivity | split; [reflexivity | eexists; reflexivity]].
Qed.

(** C2, as stated, fails: after a tick at time 2, a tick at time 1 is taken
    like any other; the timestamps become [2; 1]. *)
Lemma pushSample_accepts_out_of_order_tick :
  t afterFirstTick = [2]
  /\ t (fst (pushSample initialUi afterFirstTick initialUi 1 128 30)) = [2; 1]
  /\ t (fst (pushSample initialUi afterFirstTick initialUi 1 128 30))
     <> t afterFirstTick.
Proof.
  destruct afterFirstTick_buffers as [Ht [Hm _]].
  destruct (pushSample_buffers initialUi afterFirstTick initialUi 1 128 30)
    as [-> _].
  rewrite Ht, Hm. cbn [app trimCount]. js_cmp. cbn [skipn].
  repeat split; congruence.
Qed.

(** C3, as amended.  After every [pushSample] (that is, after each trim) the
    span of the timestamps is at most [maxBufSec], whatever the tick; the
    timestamps are strictly increasing provided the buffer was and the new
    timestamp is later than its last entry.  From the initial state, after
    any sequence of ticks the span is at most 60 s, and the timestamps are
    strictly increasing if those of the ticks are. *)
Theorem buffer_invariant_after_trim
  (snap : Ui) (st : St) (ui : Ui) (tSec gMean fs : R) :
  let st' := fst (pushSample snap st ui tSec gMean fs) in
  spanWithin (t st') (maxBufSec st')
  /\ (strictlyIncreasing (t st ++ [tSec]) -> strictlyIncreasing (t st'))
  /\ (forall ticks,
        let stN := fst (pushAll snap initialSt initialUi ticks) in
        spanWithin (t stN) 60
        /\ (strictlyIncreasing (map tickT ticks) ->
            strictlyIncreasing (t stN))).
Proof.
  cbv zeta.
  destruct (pushSample_buffers snap st ui tSec gMean fs) as [Ht [_ [_ Hm]]].
  split; [| split].
  - rewrite Ht, Hm.
    pose proof (trimCount_span (maxBufSec st) (t st ++ [tSec])) as H.
    rewrite last_last in H. exact H.
  - intros H. rewrite Ht. apply strictlyIncreasing_skipn; exact H.
  - intros ticks.
    destruct (pushAll_buffers snap ticks initialSt initialUi)
      as [_ [Hs [k [_ Hk]]]].
    split.
    + apply Hs. intros H; exfalso; apply H; reflexivity.
    + intros H. rewrite Hk. apply strictlyIncreasing_skipn; exact H.
Qed.

Lemma buffer_invariant_after_trim_witness :
  strictlyIncreasing
    (t (fst (pushSample initialUi initialSt initialUi 1 128 30)))
  /\ strictlyIncreasing
       (t (fst (pushAll initialUi initialSt initialUi
                  [mkTick 1 128 30; mkTick 2 128 30]))).
Proof.
  split.
  - apply (proj1 (proj2 (buffer_invariant_after_trim
                           initialUi initialSt initialUi 1 128 30))).
    intros [| [| i]] a b Ha Hb; discriminate Hb.
  - apply (proj2 (proj2 (buffer_invariant_after_trim
                           initialUi initialSt initialUi 1 128 30))
             [mkTick 1 128 30; mkTick 2 128 30]).
    intros [| [| i]] a b Ha Hb; cbn in Ha, Hb.
    + injection Ha as <-; injection Hb as <-; lra.
    + discriminate Hb.
    + destruct i; discriminate Hb.
Defined.

(** C3, as stated, fails: two ticks with the same timestamp are both
    stored, and the buffer is not strictly increasing. *)
Lemma equal_timestamps_break_strict_order :
  t (fst (pushAll initialUi initialSt initialUi
            [mkTick 2 128 30; mkTick 2 128 30])) = [2; 2]
  /\ ~ strictlyIncreasing
       (t (fst (pushAll initialUi initialSt initialUi
                  [mkTick 2 128 30; mkTick 2 128 30]))).
Proof.
  assert (H : t (fst (pushAll initialUi initialSt initialUi
                        [mkTick 2 128 30; mkTick 2 128 30])) = [2; 2]).
  { cbn [pushAll tickT tickG tickFs].
    destruct afterFirstTick_buffers as [Ht [Hm _]].
    pose proof (pushSample_buffers initialUi afterFirstTick initialUi 2 128 30)
      as [Hb _].
    unfold afterFirstTick in *.
    destruct (pushSample initialUi initialSt initialUi 2 128 30)
      as [st1 ui1]. cbn [fst] in *.
    destruct (pushSample initialUi st1 ui1 2 128 30) as [st2 ui2] eqn:E2.
    cbn [fst].
    pose proof (pushSample_buffers initialUi st1 ui1 2 128 30) as [Hb2 _].
    rewrite E2 in Hb2; cbn [fst] in Hb2. rewrite Hb2, Ht, Hm.
    cbn [app trimCount]. js_cmp. reflexivity. }
  split; [exact H |].
  rewrite H. intros Hs.
  specialize (Hs 0%nat 2 2 eq_refl eq_refl). lra.
Qed.

(** ** Spectral estimate: the skipped case *)

Lemma hrv_keeps_estimate (snap : Ui) (st : St) (ui : Ui) (fs : R) :
  hrBpm (snd (hrv snap st ui fs)) = hrBpm ui
  /\ snr (snd (hrv snap st ui fs)) = snr ui.
Proof.
  destruct (hrv_frame snap st ui fs) as [_ [_ [_ [_ [H1 [H2 _]]]]]].
  split; assumption.
Qed.

(** A buffer that holds a single sample gives a one-sample segment and the
    fallback rate of 30 Hz. *)
Lemma getLatestSegment_single (y a w : R) :
  0 <= w -> getLatestSegment [y] [a] w = ([y], 30).
Proof.
  intros Hw. unfold getLatestSegment.
  cbn [last length findStart nth]. js_cmp.
  cbn [slice skipn nth_error].
  replace (a - a) with 0 by lra. unfold Rdiv at 1. rewrite Rmult_0_l.
  js_cmp. reflexivity.
Qed.

(** C6, as amended.  When the segment holds no more than [4 * fsUsed]
    samples the estimator does not run, and the heart rate and the quality
    ratio keep the values they had before the tick. *)
Theorem skipped_estimate_keeps_previous_values
  (snap : Ui) (st : St) (ui : Ui) (tSec gMean fs : R) :
  let st1 := ingest st tSec gMean fs in
  let segment := fst (getLatestSegment (bvp st1) (t st1) 12) in
  let fsUsed := snd (getLatestSegment (bvp st1) (t st1) 12) in
  let ui' := snd (pushSample snap st ui tSec gMean fs) in
  INR (length segment) <= fsUsed * 4 ->
  spectral st1 ui = ui /\ hrBpm ui' = hrBpm ui /\ snr ui' = snr ui.
Proof.
  cbv zeta. intros H. unfold pushSample.
  rewrite (spectral_skip _ ui H).
  split; [reflexivity | apply hrv_keeps_estimate].
Qed.

Lemma after_pause_segment :
  let st1 := ingest afterFirstTick 100 128 30 in
  exists y, getLatestSegment (bvp st1) (t st1) 12 = ([y], 30).
Proof.
  cbv zeta. rewrite ingest_eq.
  destruct afterFirstTick_buffers as [Ht [Hm [y0 Hb]]].
  cbn [t bvp]. rewrite Ht, Hm, Hb. cbn [app trimCount]. js_cmp.
  cbn [skipn]. eexists. apply getLatestSegment_single. lra.
Qed.

Lemma skip_condition_single (seg : list R * R) (y : R) :
  seg = ([y], 30) -> INR (length (fst seg)) <= snd seg * 4.
Proof. intros ->. simpl. lra. Qed.

Lemma skipped_estimate_keeps_previous_values_witness :
  spectral (ingest afterFirstTick 100 128 30) estimatedUi = estimatedUi
  /\ hrBpm (snd (pushSample initialUi afterFirstTick estimatedUi 100 128 30))
     = hrBpm estimatedUi
  /\ snr (snd (pushSample initialUi afterFirstTick estimatedUi 100 128 30))
     = snr estimatedUi.
Proof.
  apply (skipped_estimate_keeps_previous_values
           initialUi afterFirstTick estimatedUi 100 128 30).
  destruct after_pause_segment as [y Hy].
  apply (skip_condition_single _ y). exact Hy.
Defined.

(** C6, as stated, fails: a tick that arrives 98 s after the previous one
    leaves a one-sample segment, the estimator is skipped, and the heart
    rate and quality of the earlier estimate stay on display. *)
Lemma skipped_estimate_is_stale :
  let st1 := ingest afterFirstTick 100 128 30 in
  let ui' := snd (pushSample initialUi afterFirstTick estimatedUi 100 128 30) in
  INR (length (fst (getLatestSegment (bvp st1) (t st1) 12)))
  <= snd (getLatestSegment (bvp st1) (t st1) 12) * 4
  /\ hrBpm ui' = Some 72 /\ snr ui' = Some 2.5
  /\ hrBpm ui' <> None /\ snr ui' <> None.
Proof.
  cbv zeta.
  assert (H : INR (length (fst (getLatestSegment
                 (bvp (ingest afterFirstTick 100 128 30))
                 (t (ingest afterFirstTick 100 128 30)) 12)))
              <= snd (getLatestSegment
                 (bvp (ingest afterFirstTick 100 128 30))
                 (t (ingest afterFirstTick 100 128 30)) 12) * 4).
  { destruct after_pause_segment as [y Hy].
    apply (skip_condition_single _ y). exact Hy. }
  split; [exact H |].
  unfold pushSample. rewrite (spectral_skip _ estimatedUi H).
  destruct (hrv_keeps_estimate initialUi (ingest afterFirstTick 100 128 30)
              estimatedUi 30) as [-> ->].
  cbn. repeat split; congruence.
Qed.

(** ** Refractory rule *)

(** C5, as amended.  With [tPeak] the timestamp of the candidate [y[N-2]]:
    a candidate that passes the peak test is accepted iff no peak is on
    record ([lastPeakT < 0]) or more than 0.33 s have passed since
    [lastPeakT]; otherwise no interval is returned and the state is left
    as it is.  On acceptance [lastPeakT] becomes [tPeak], and the interval
    [tPeak - lastPeakT] is returned when the previous [lastPeakT] was
    positive (none when no peak was on record).  So every returned interval
    is longer than 0.33 s: two peaks at most 0.33 s apart give at most one
    interval. *)
Theorem refractory_rule (st : St) (fs : R) :
  let N := length (bvp st) in
  let tPeak := nth (N - 2) (t st) 0 in
  let r := fst (detectPeakAndIBI st fs) in
  let st' := snd (detectPeakAndIBI st fs) in
  ((5 <= N)%nat -> isPeak st fs = true ->
     0 <= lastPeakT st -> tPeak - lastPeakT st <= 0.33 ->
     r = None /\ st' = st)
  /\ ((5 <= N)%nat -> isPeak st fs = true ->
      lastPeakT st < 0 \/ 0.33 < tPeak - lastPeakT st ->
      st' = set_lastPeakT tPeak st
      /\ (0 < lastPeakT st -> r = Some (tPeak - lastPeakT st))
      /\ (lastPeakT st < 0 -> r = None))
  /\ ((N < 5)%nat \/ isPeak st fs = false -> r = None /\ st' = st)
  /\ (forall ibi, r = Some ibi ->
        0.33 < ibi /\ ibi = tPeak - lastPeakT st /\ lastPeakT st' = tPeak).
Proof.
  cbv zeta. unfold detectPeakAndIBI.
  split; [| split; [| split]].
  - intros HN Hp Hl Hd. apply Nat.ltb_ge in HN. rewrite HN, Hp.
    apply ltb_false in Hl. apply gtb_false in Hd. rewrite Hl, Hd.
    split; reflexivity.
  - intros HN Hp Hacc. apply Nat.ltb_ge in HN. rewrite HN, Hp.
    assert (Hor : ltb (lastPeakT st) 0
                  || gtb (nth (length (bvp st) - 2) (t st) 0 - lastPeakT st)
                         0.33 = true).
    { apply orb_true_iff. destruct Hacc as [H | H];
        [left; apply ltb_true | right; apply gtb_true]; exact H. }
    rewrite Hor. split; [reflexivity | split].
    + intros H. apply gtb_true in H. rewrite H. reflexivity.
    + intros H. assert (H' : lastPeakT st <= 0) by lra.
      apply gtb_false in H'. rewrite H'. reflexivity.
  - intros [HN | Hp].
    + apply Nat.ltb_lt in HN. rewrite HN. split; reflexivity.
    + rewrite Hp. destruct (_ <? 5)%nat; split; reflexivity.
  - intros ibi.
    destruct (length (bvp st) <? 5)%nat; [discriminate |].
    destruct (isPeak st fs); [| discriminate].
    destruct (ltb (lastPeakT st) 0) eqn:El; cbn [orb fst snd].
    + apply ltb_true in El. assert (H' : lastPeakT st <= 0) by lra.
      apply gtb_false in H'. rewrite H'. discriminate.
    + destruct (gtb (_ - lastPeakT st) 0.33) eqn:Ed; [| discriminate].
      apply gtb_true in Ed.
      destruct (gtb (lastPeakT st) 0); [| discriminate].
      cbn [fst snd]. intros [= <-]. repeat split; exact Ed.
Qed.

Lemma refractoryState_threshold :
  threshold (bvp refractoryState) = Some 1.2.
Proof.
  unfold threshold, refractoryState; cbn [bvp length].
  assert (Hmean : sum [-2; -2; -2; -1; 3; 0; 1; 3; 0] / INR 9 = 0).
  { unfold sum; cbn [fold_left]. simpl INR. lra. }
  rewrite Hmean. unfold Math_max. rewrite Rmax_right by (simpl INR; lra).
  cbn [map]. unfold sum; cbn [fold_left].
  match goal with
  | |- Some (0 + 0.6 * sqrt ?x) = _ => replace x with (2 * 2)
      by (simpl INR; lra)
  end.
  rewrite sqrt_square by lra. f_equal. lra.
Qed.

Lemma refractoryState_isPeak : isPeak refractoryState 30 = true.
Proof.
  unfold isPeak.
  assert (Hfloor : Math_floor (Math_min 5 (maxBufSec refractoryState) * 30)
                   = 150%Z).
  { unfold Math_floor, Math_min; cbn [refractoryState maxBufSec].
    rewrite Rmin_left by lra. symmetry; apply Int_part_spec; lra. }
  rewrite Hfloor.
  change (slice _ (bvp refractoryState)) with (bvp refractoryState).
  rewrite refractoryState_threshold.
  cbn [refractoryState bvp length Nat.sub nth Nat.add]. js_cmp. reflexivity.
Qed.

Lemma refractory_rule_witness :
  (snd (detectPeakAndIBI refractoryState 30)
   = set_lastPeakT 1.332 refractoryState
   /\ (0 < lastPeakT refractoryState ->
       fst (detectPeakAndIBI refractoryState 30) = Some (1.332 - 1.0))
   /\ (lastPeakT refractoryState < 0 ->
       fst (detectPeakAndIBI refractoryState 30) = None))
  /\ (fst (detectPeakAndIBI (set_lastPeakT 1.2 refractoryState) 30) = None
      /\ snd (detectPeakAndIBI (set_lastPeakT 1.2 refractoryState) 30)
         = set_lastPeakT 1.2 refractoryState).
Proof.
  split.
  - apply (proj1 (proj2 (refractory_rule refractoryState 30))).
    + simpl; lia.
    + exact refractoryState_isPeak.
    + right; simpl; lra.
  - apply (proj1 (refractory_rule (set_lastPeakT 1.2 refractoryState) 30)).
    + simpl; lia.
    + exact refractoryState_isPeak.
    + simpl; lra.
    + simpl; lra.
Defined.

(** C5, as stated, fails: the candidate at 1.332 s comes 0.332 s after the
    accepted peak at 1.0 s, less than 0.333 s, and is accepted all the
    same: its interval is returned and [lastPeakT] moves to 1.332. *)
Lemma refractory_accepts_within_333ms :
  nth (length (bvp refractoryState) - 2) (t refractoryState) 0
  - lastPeakT refractoryState < 0.333
  /\ detectPeakAndIBI refractoryState 30
     = (Some (1.332 - 1.0), set_lastPeakT 1.332 refractoryState).
Proof.
  split; [simpl; lra |].
  unfold detectPeakAndIBI. rewrite refractoryState_isPeak.
  cbn [refractoryState bvp t lastPeakT length Nat.ltb Nat.leb Nat.sub nth].
  js_cmp. reflexivity.
Qed.

(** * Further properties of the processing helpers *)

(** ** Sums and the moving average *)

Lemma fold_left_Rplus (l : list R) (a : R) :
  fold_left Rplus l a = a + sum l.
Proof.
  unfold sum. revert a; induction l as [| x l IH]; intros a; simpl.
  - lra.
  - rewrite IH, (IH (0 + x)). lra.
Qed.

Lemma sum_cons (x : R) (l : list R) : sum (x :: l) = x + sum l.
Proof. unfold sum at 1; simpl. rewrite fold_left_Rplus. lra. Qed.

Lemma sum_bounds (lo hi : R) (l : list R) :
  Forall (fun v => lo <= v <= hi) l ->
  INR (length l) * lo <= sum l <= INR (length l) * hi.
Proof.
  induction 1 as [| x l Hx _ IH].
  - unfold sum; simpl; lra.
  - rewrite sum_cons. change (length (x :: l)) with (S (length l)).
    rewrite S_INR. lra.
Qed.

Lemma sum_map_shift (c : R) (l : list R) :
  sum (map (Rplus c) l) = INR (length l) * c + sum l.
Proof.
  induction l as [| x l IH].
  - unfold sum; simpl; lra.
  - cbn [map]. rewrite !sum_cons, IH.
    change (length (x :: l)) with (S (length l)). rewrite S_INR. lra.
Qed.

(** The window that [movingAverageTail] averages over. *)
Lemma movingAverageTail_window (arr : list R) (win : Z) :
  arr <> [] -> (1 <= win)%Z ->
  let n := Z.min win (Z.of_nat (length arr)) in
  let tail := slice (length arr - Z.to_nat n) arr in
  movingAverageTail arr win = sum tail / INR (length tail)
  /\ (0 < length tail)%nat.
Proof.
  intros Hne Hwin; cbv zeta. destruct arr as [| a arr']; [congruence |].
  unfold movingAverageTail, slice. set (l := a :: arr') in *.
  assert (Hl : (0 < length l)%nat) by (unfold l; simpl; lia).
  rewrite length_skipn.
  replace (length l - (length l - Z.to_nat (Z.min win (Z.of_nat (length l)))))%nat
    with (Z.to_nat (Z.min win (Z.of_nat (length l)))) by lia.
  split; [| lia].
  rewrite INR_IZR_INZ, Z2Nat.id by lia. reflexivity.
Qed.

(** X1.  On a non-empty array and a window of at least one sample the
    moving average lies between any bounds that hold for the samples. *)
Theorem movingAverageTail_bounds (arr : list R) (win : Z) (lo hi : R) :
  arr <> [] -> (1 <= win)%Z ->
  Forall (fun v => lo <= v <= hi) arr ->
  lo <= movingAverageTail arr win <= hi.
Proof.
  intros Hne Hwin Hall.
  destruct (movingAverageTail_window arr win Hne Hwin) as [-> Hlen].
  set (tail := slice _ arr) in *.
  assert (Ht : Forall (fun v => lo <= v <= hi) tail).
  { apply Forall_forall. intros v Hv. rewrite Forall_forall in Hall.
    apply Hall. unfold tail, slice in Hv.
    rewrite <- (firstn_skipn (length arr - Z.to_nat
              (Z.min win (Z.of_nat (length arr)))) arr).
    apply in_or_app; right; exact Hv. }
  apply sum_bounds in Ht.
  assert (Hpos : 0 < INR (length tail)) by (apply lt_0_INR; exact Hlen).
  split.
  - apply Rmult_le_reg_r with (INR (length tail)); [exact Hpos |].
    unfold Rdiv. rewrite Rmult_assoc, Rinv_l by lra. lra.
  - apply Rmult_le_reg_r with (INR (length tail)); [exact Hpos |].
    unfold Rdiv. rewrite Rmult_assoc, Rinv_l by lra. lra.
Qed.

Lemma movingAverageTail_bounds_witness :
  1 <= movingAverageTail [1; 3; 2] 5 <= 3.
Proof.
  apply movingAverageTail_bounds; [discriminate | lia |].
  repeat constructor; lra.
Defined.

Lemma movingAverageTail_shift (c : R) (arr : list R) (win : Z) :
  arr <> [] -> (1 <= win)%Z ->
  movingAverageTail (map (Rplus c) arr) win = c + movingAverageTail arr win.
Proof.
  intros Hne Hwin.
  assert (Hne' : map (Rplus c) arr <> [])
    by (destruct arr; [congruence | discriminate]).
  destruct (movingAverageTail_window arr win Hne Hwin) as [-> Hlen].
  destruct (movingAverageTail_window _ win Hne' Hwin) as [-> _].
  rewrite length_map. unfold slice in *. rewrite skipn_map, length_map.
  rewrite sum_map_shift.
  set (tail := skipn _ arr) in *.
  assert (Hpos : 0 < INR (length tail)) by (apply lt_0_INR; exact Hlen).
  field. lra.
Qed.

(** X2.  The filtered value of a tick does not depend on a constant offset
    of the brightness: adding [c] to every raw sample, the new one
    included, leaves the value appended to [bvp] unchanged. *)
Theorem filterSample_offset_invariant
  (st : St) (gRaw0 : list R) (gMean fs c : R) :
  fst (fst (filterSample st (map (Rplus c) (gRaw0 ++ [gMean]))
              (c + gMean) fs))
  = fst (fst (filterSample st (gRaw0 ++ [gMean]) gMean fs)).
Proof.
  rewrite !filterSample_output.
  rewrite movingAverageTail_shift;
    [| intros H; apply app_eq_nil in H; destruct H; discriminate
     | apply Z.le_trans with 5%Z; [lia | apply Z.le_max_l]].
  match goal with
  | |- context [c + gMean - (c + ?m)] =>
      replace (c + gMean - (c + m)) with (gMean - m) by lra
  end.
  reflexivity.
Qed.

(** ** Segment extraction *)

(** X3.  Whatever the buffers and the window, [getLatestSegment] returns a
    suffix of the signal and a sampling rate between 10 and 90 Hz. *)
Theorem getLatestSegment_rate_and_suffix (sig t0 : list R) (windowSec : R) :
  10 <= snd (getLatestSegment sig t0 windowSec) <= 90
  /\ exists k, fst (getLatestSegment sig t0 windowSec) = skipn k sig.
Proof.
  unfold getLatestSegment.
  destruct sig as [| s sig']; [simpl; split; [lra | exists 0%nat; reflexivity] |].
  destruct t0 as [| a t']; [simpl; split; [lra |] |].
  - exists (length (s :: sig')). rewrite skipn_all. reflexivity.
  - cbn [fst snd]. split; [| eexists; reflexivity].
    destruct (nth_error _ _) as [ti0 |]; [| lra].
    destruct (gtb _ 0); [| lra].
    unfold Math_min, Math_max.
    apply Rmin_case_strong; apply Rmax_case_strong; intros; lra.
Qed.

Lemma findStart_spec (t0 : list R) (bound : R) (k : nat) :
  let i0 := findStart t0 bound k in
  (i0 <= k)%nat
  /\ (forall j, (i0 <= j < k)%nat -> bound <= nth j t0 0)
  /\ (i0 = 0%nat \/ nth (i0 - 1) t0 0 < bound).
Proof.
  cbv zeta. induction k as [| i IH]; cbn [findStart].
  - split; [lia | split; [intros j Hj; lia | left; reflexivity]].
  - destruct (ltb (nth i t0 0) bound) eqn:E.
    + apply ltb_true in E. split; [lia | split; [intros j Hj; lia |]].
      right. replace (S i - 1)%nat with i by lia. exact E.
    + apply ltb_false in E. destruct IH as [IH1 [IH2 IH3]].
      split; [lia | split; [| exact IH3]].
      intros j Hj. destruct (Nat.eq_dec j i) as [-> | Hne]; [exact E |].
      apply IH2; lia.
Qed.

Lemma nth_pred_length (l : list R) :
  l <> [] -> nth (length l - 1) l 0 = last l 0.
Proof.
  destruct l as [| a l]; [congruence | intros _].
  replace (length (a :: l) - 1)%nat with (length l) by (simpl; lia).
  apply nth_error_nth, nth_error_last.
Qed.

(** X4.  With aligned, non-empty buffers and a non-negative window, the
    segment is non-empty and is the longest suffix whose timestamps are
    all at least [tmax - windowSec]: it starts at [i0], every timestamp
    from [i0] on is within the window, and the one just before [i0], if
    any, is older. *)
Theorem getLatestSegment_window (sig t0 : list R) (windowSec : R) :
  length sig = length t0 -> t0 <> [] -> 0 <= windowSec ->
  let tmax := last t0 0 in
  let i0 := findStart t0 (tmax - windowSec) (length t0) in
  fst (getLatestSegment sig t0 windowSec) = skipn i0 sig
  /\ (i0 < length t0)%nat
  /\ length (fst (getLatestSegment sig t0 windowSec)) = (length t0 - i0)%nat
  /\ (forall j, (i0 <= j < length t0)%nat -> tmax - windowSec <= nth j t0 0)
  /\ (i0 = 0%nat \/ nth (i0 - 1) t0 0 < tmax - windowSec).
Proof.
  intros Hlen Hne Hw; cbv zeta.
  destruct (findStart_spec t0 (last t0 0 - windowSec) (length t0))
    as [H1 [H2 H3]].
  assert (Hlt : (findStart t0 (last t0 0 - windowSec)%R (length t0)
                 < length t0)%nat).
  { destruct t0 as [| a t']; [congruence |].
    change (length (a :: t')) with (S (length t')).
    cbn [findStart].
    rewrite (nth_error_nth _ _ 0 (nth_error_last t' a)).
    replace (ltb (last (a :: t') 0) (last (a :: t') 0 - windowSec))
      with false by (symmetry; apply ltb_false; lra).
    pose proof (findStart_spec (a :: t') (last (a :: t') 0 - windowSec)
                  (length t')) as [H _].
    lia. }
  assert (Hseg : fst (getLatestSegment sig t0 windowSec)
                 = skipn (findStart t0 (last t0 0 - windowSec) (length t0))
                         sig).
  { unfold getLatestSegment.
    destruct sig as [| s sig']; [destruct t0; [congruence | discriminate] |].
    destruct t0 as [| a t']; [congruence |]. reflexivity. }
  split; [exact Hseg | split; [exact Hlt | split; [| split; assumption]]].
  rewrite Hseg, length_skipn, Hlen. reflexivity.
Qed.

Lemma getLatestSegment_window_witness :
  fst (getLatestSegment [5; 6; 7] [1; 2; 3] 12)
  = skipn (findStart [1; 2; 3] (last [1; 2; 3] 0 - 12) 3) [5; 6; 7].
Proof.
  apply (getLatestSegment_window [5; 6; 7] [1; 2; 3] 12);
    [reflexivity | discriminate | lra].
Defined.

(** ** [argmax] *)

Lemma argmax_fold (a : list R) (cnt : nat) :
  forall start m,
    (m < start)%nat ->
    (forall j, (j < start)%nat -> nth j a 0 <= nth m a 0) ->
    (forall j, (j < m)%nat -> nth j a 0 < nth m a 0) ->
    let r := fold_left
               (fun m i => if gtb (nth i a 0) (nth m a 0) then i else m)
               (seq start cnt) m in
    (r < start + cnt)%nat
    /\ (forall j, (j < start + cnt)%nat -> nth j a 0 <= nth r a 0)
    /\ (forall j, (j < r)%nat -> nth j a 0 < nth r a 0).
Proof.
  induction cnt as [| cnt IH]; intros start m Hm Hle Hlt; cbv zeta.
  - cbn [seq fold_left]. rewrite Nat.add_0_r.
    split; [exact Hm | split; assumption].
  - cbn [seq fold_left].
    replace (start + S cnt)%nat with (S start + cnt)%nat by lia.
    destruct (gtb (nth start a 0) (nth m a 0)) eqn:E.
    + apply gtb_true in E. apply IH; [lia | |].
      * intros j Hj. destruct (Nat.eq_dec j start) as [-> | Hne]; [lra |].
        specialize (Hle j ltac:(lia)). lra.
      * intros j Hj. specialize (Hle j Hj). lra.
    + apply gtb_false in E. apply IH; [lia | | exact Hlt].
      intros j Hj. destruct (Nat.eq_dec j start) as [-> | Hne]; [exact E |].
      apply Hle; lia.
Qed.

Lemma argmax_bounds (a : list R) :
  a <> [] ->
  (argmax a < length a)%nat
  /\ (forall j, (j < length a)%nat -> nth j a 0 <= nth (argmax a) a 0).
Proof.
  intros Hne. destruct a as [| x a']; [congruence |].
  pose proof (argmax_fold (x :: a') (length (x :: a') - 1) 1 0) as H.
  cbv zeta in H.
  replace (1 + (length (x :: a') - 1))%nat with (length (x :: a')) in H
    by (simpl; lia).
  destruct H as [H1 [H2 _]]; [lia | | intros j Hj; lia | split; assumption].
  intros j Hj. replace j with 0%nat by lia. lra.
Qed.

(** X5.  On a non-empty array [argmax] returns a valid index of a largest
    element, and the first such index: every earlier element is strictly
    smaller. *)
Theorem argmax_first_maximum (a : list R) :
  a <> [] ->
  (argmax a < length a)%nat
  /\ (forall j, (j < length a)%nat -> nth j a 0 <= nth (argmax a) a 0)
  /\ (forall j, (j < argmax a)%nat -> nth j a 0 < nth (argmax a) a 0).
Proof.
  intros Hne. destruct a as [| x a']; [congruence |].
  pose proof (argmax_fold (x :: a') (length (x :: a') - 1) 1 0) as H.
  cbv zeta in H.
  replace (1 + (length (x :: a') - 1))%nat with (length (x :: a')) in H
    by (simpl; lia).
  apply H; [lia | | intros j Hj; lia].
  intros j Hj. replace j with 0%nat by lia. lra.
Qed.

Lemma argmax_first_maximum_witness :
  (argmax [1; 3; 3; 2]%R < 4)%nat.
Proof.
  apply (proj1 (argmax_first_maximum [1; 3; 3; 2] ltac:(discriminate))).
Defined.

(** ** [sort] and [median] *)

Lemma insert_sorted_perm (x : R) (l : list R) :
  Permutation (x :: l) (insert_sorted x l).
Proof.
  induction l as [| y l IH]; cbn [insert_sorted]; [reflexivity |].
  destruct (leb x y); [reflexivity |].
  rewrite perm_swap. apply perm_skip, IH.
Qed.

Lemma insert_sorted_sorted (x : R) (l : list R) :
  Sorted Rle l -> Sorted Rle (insert_sorted x l).
Proof.
  induction 1 as [| y l Hs IH Hhd]; cbn [insert_sorted].
  - apply Sorted_cons; constructor.
  - destruct (leb x y) eqn:E.
    + apply leb_true in E.
      apply Sorted_cons; [apply Sorted_cons; assumption |].
      apply HdRel_cons; exact E.
    + apply leb_false in E. apply Sorted_cons; [exact IH |].
      destruct l as [| z l']; cbn [insert_sorted].
      * apply HdRel_cons; lra.
      * inversion Hhd; subst. destruct (leb x z); apply HdRel_cons; lra.
Qed.

Lemma sort_perm (l : list R) : Permutation l (sort l).
Proof.
  induction l as [| x l IH]; [reflexivity |].
  change (sort (x :: l)) with (insert_sorted x (sort l)).
  rewrite <- insert_sorted_perm. apply perm_skip, IH.
Qed.

Lemma sort_sorted (l : list R) : Sorted Rle (sort l).
Proof.
  induction l as [| x l IH]; [constructor |].
  change (sort (x :: l)) with (insert_sorted x (sort l)).
  apply insert_sorted_sorted, IH.
Qed.

Lemma nth_Forall (P : R -> Prop) (l : list R) (i : nat) :
  Forall P l -> (i < length l)%nat -> P (nth i l 0).
Proof.
  intros H Hi. rewrite Forall_forall in H. apply H, nth_In, Hi.
Qed.

Lemma median_bounds (a : list R) (lo hi : R) :
  a <> [] -> Forall (fun v => lo <= v <= hi) a -> lo <= median a <= hi.
Proof.
  intros Hne Hall.
  assert (Hs : Forall (fun v => lo <= v <= hi) (sort a))
    by (apply (Permutation_Forall (sort_perm a)); exact Hall).
  assert (Hlen : length (sort a) = length a)
    by (symmetry; apply Permutation_length, sort_perm).
  unfold median. destruct (length (sort a)) as [| n] eqn:En.
  - destruct a; [congruence | simpl in Hlen; lia].
  - rewrite <- En.
    assert (Hdiv : (length (sort a) / 2 < length (sort a))%nat)
      by (apply Nat.div_lt; lia).
    destruct (Nat.odd (length (sort a))).
    + apply (nth_Forall _ _ _ Hs).
      apply Nat.le_lt_trans with (length (sort a) / 2)%nat; [| exact Hdiv].
      apply Nat.Div0.div_le_mono; lia.
    + pose proof (nth_Forall _ _ (length (sort a) / 2 - 1) Hs
                    ltac:(lia)) as H1.
      pose proof (nth_Forall _ _ (length (sort a) / 2) Hs Hdiv) as H2.
      cbv beta in H1, H2. lra.
Qed.

(** X6.  [sort] returns the same elements in ascending order, and the
    median of a non-empty array lies between any bounds that hold for its
    elements. *)
Theorem median_within_bounds (a : list R) (lo hi : R) :
  Permutation a (sort a) /\ Sorted Rle (sort a)
  /\ (a <> [] -> Forall (fun v => lo <= v <= hi) a ->
      lo <= median a <= hi).
Proof.
  split; [apply sort_perm | split; [apply sort_sorted |]].
  apply median_bounds.
Qed.

Lemma median_within_bounds_witness : 1 <= median [3; 1; 2] <= 3.
Proof.
  apply (proj2 (proj2 (median_within_bounds [3; 1; 2] 1 3)));
    [discriminate | repeat constructor; lra].
Defined.

(** ** The spectrum *)

Lemma nth_map_seq (g : nat -> R) (n : nat) :
  forall start i, (i < n)%nat -> nth i (map g (seq start n)) 0 = g (start + i)%nat.
Proof.
  induction n as [| n IH]; intros start i Hi; [lia |].
  cbn [seq map]. destruct i as [| i]; cbn [nth].
  - rewrite Nat.add_0_r; reflexivity.
  - rewrite IH by lia. f_equal; lia.
Qed.

Lemma freqs_nth (f0 f1 : R) (bins i : nat) :
  (i < bins)%nat ->
  nth i (map (fun i => f0 + (f1 - f0) * (INR i / (INR bins - 1)))
             (seq 0 bins)) 0
  = f0 + (f1 - f0) * (INR i / (INR bins - 1)).
Proof.
  intros Hi. rewrite nth_map_seq by exact Hi. reflexivity.
Qed.

Lemma grid_fraction (bins i : nat) :
  (2 <= bins)%nat -> (i < bins)%nat ->
  0 <= INR i / (INR bins - 1) <= 1.
Proof.
  intros Hb Hi.
  assert (H1 : 1 <= INR bins - 1).
  { apply le_INR in Hb. simpl in Hb. lra. }
  assert (H2 : INR i <= INR bins - 1).
  { assert (H : (i <= bins - 1)%nat) by lia. apply le_INR in H.
    rewrite minus_INR in H by lia. simpl in H. lra. }
  pose proof (pos_INR i) as H0.
  split.
  - apply Rmult_le_pos; [exact H0 | left; apply Rinv_0_lt_compat; lra].
  - apply Rmult_le_reg_r with (INR bins - 1); [lra |].
    unfold Rdiv. rewrite Rmult_assoc, Rinv_l by lra. lra.
Qed.

Lemma goertzelPower_nonneg (x : list R) (fs f : R) :
  0 <= goertzelPower x fs f.
Proof.
  unfold goertzelPower.
  destruct (fold_left _ x (0, 0)) as [s_prev s_prev2]. cbv zeta.
  apply Rplus_le_le_0_compat; apply Rle_0_sqr.
Qed.

(** X7.  [goertzelSpectrum] returns [bins] frequencies and [bins] powers,
    no power is negative, and with at least two bins the frequencies run
    from [f0] (first) to [f1] (last), stay inside the band, and increase
    strictly when [f0 < f1]. *)
Theorem goertzelSpectrum_grid (x : list R) (fs f0 f1 : R) (bins : nat) :
  let freqs := fst (goertzelSpectrum x fs (f0, f1) bins) in
  let powers := snd (goertzelSpectrum x fs (f0, f1) bins) in
  length freqs = bins /\ length powers = bins
  /\ Forall (fun p => 0 <= p) powers
  /\ ((2 <= bins)%nat ->
      nth 0 freqs 0 = f0 /\ nth (bins - 1) freqs 0 = f1
      /\ (f0 <= f1 -> Forall (fun f => f0 <= f <= f1) freqs)
      /\ (f0 < f1 ->
          forall i j, (i < j < bins)%nat -> nth i freqs 0 < nth j freqs 0)).
Proof.
  cbv zeta. unfold goertzelSpectrum; cbn [fst snd].
  split; [rewrite length_map, length_seq; reflexivity |].
  split; [rewrite !length_map, length_seq; reflexivity |].
  split.
  { apply Forall_forall. intros p Hp. apply in_map_iff in Hp.
    destruct Hp as [f [<- _]]. apply goertzelPower_nonneg. }
  intros Hb.
  assert (H1 : 1 <= INR bins - 1).
  { apply le_INR in Hb. simpl in Hb. lra. }
  split; [| split; [| split]].
  - rewrite freqs_nth by lia. simpl INR. unfold Rdiv. lra.
  - rewrite freqs_nth by lia. rewrite minus_INR by lia. simpl INR.
    unfold Rdiv. rewrite Rinv_r by lra. lra.
  - intros Hf. apply Forall_forall. intros f Hin. apply in_map_iff in Hin.
    destruct Hin as [i [<- Hi]]. apply in_seq in Hi.
    pose proof (grid_fraction bins i Hb ltac:(lia)) as Hfr. nra.
  - intros Hf i j Hij. rewrite !freqs_nth by lia.
    assert (Hlt : INR i / (INR bins - 1) < INR j / (INR bins - 1)).
    { unfold Rdiv. apply Rmult_lt_compat_r;
        [apply Rinv_0_lt_compat; lra | apply lt_INR; lia]. }
    nra.
Qed.

Lemma goertzelSpectrum_grid_witness :
  nth 0 (fst (goertzelSpectrum [1; 2] 30 (0.7, 3.0) 120)) 0 = 0.7.
Proof.
  apply (proj1 (proj2 (proj2 (proj2
           (goertzelSpectrum_grid [1; 2] 30 0.7 3.0 120))) ltac:(lia))).
Defined.

Lemma goertzel_fold_scale (c coeff : R) (x : list R) :
  forall a b,
    fold_left (fun '(s_prev, s_prev2) xn =>
                 (xn + coeff * s_prev - s_prev2, s_prev))
              (map (Rmult c) x) (c * a, c * b)
    = (c * fst (fold_left (fun '(s_prev, s_prev2) xn =>
                             (xn + coeff * s_prev - s_prev2, s_prev))
                          x (a, b)),
       c * snd (fold_left (fun '(s_prev, s_prev2) xn =>
                             (xn + coeff * s_prev - s_prev2, s_prev))
                          x (a, b))).
Proof.
  induction x as [| xn x IH]; intros a b; [reflexivity |].
  cbn [map fold_left].
  replace (c * xn + coeff * (c * a) - c * b)
    with (c * (xn + coeff * a - b)) by ring.
  apply IH.
Qed.

Lemma goertzelPower_scale (c : R) (x : list R) (fs f : R) :
  goertzelPower (map (Rmult c) x) fs f = c * c * goertzelPower x fs f.
Proof.
  unfold goertzelPower.
  replace (0, 0) with (c * 0, c * 0) at 1 by (f_equal; ring).
  rewrite goertzel_fold_scale.
  destruct (fold_left _ x (0, 0)) as [s_prev s_prev2]. cbn [fst snd]. ring.
Qed.

Lemma argmax_fold_scale (k : R) (a : list R) (l : list nat) :
  0 < k ->
  forall m,
    fold_left (fun m i =>
                 if gtb (nth i (map (Rmult k) a) 0) (nth m (map (Rmult k) a) 0)
                 then i else m) l m
    = fold_left (fun m i => if gtb (nth i a 0) (nth m a 0) then i else m) l m.
Proof.
  intros Hk.
  assert (Hnth : forall i, nth i (map (Rmult k) a) 0 = k * nth i a 0).
  { intros i. rewrite <- (Rmult_0_r k) at 1. apply map_nth. }
  induction l as [| i l IH]; intros m; [reflexivity |].
  cbn [fold_left]. rewrite !Hnth.
  replace (gtb (k * nth i a 0) (k * nth m a 0))
    with (gtb (nth i a 0) (nth m a 0)); [apply IH |].
  destruct (gtb (nth i a 0) (nth m a 0)) eqn:E; symmetry.
  - apply gtb_true in E. apply gtb_true. nra.
  - apply gtb_false in E. apply gtb_false. nra.
Qed.

Lemma argmax_scale (k : R) (a : list R) :
  0 < k -> argmax (map (Rmult k) a) = argmax a.
Proof.
  intros Hk. unfold argmax. rewrite length_map.
  apply argmax_fold_scale; exact Hk.
Qed.

(** X8.  Scaling the signal by [c] scales every power by [c * c]; so for
    [c <> 0] the frequencies and the position of the spectral peak, hence
    the heart-rate estimate, do not depend on the amplitude of the
    signal. *)
Theorem spectral_peak_scale_invariant
  (c : R) (x : list R) (fs : R) (band : R * R) (bins : nat) :
  snd (goertzelSpectrum (map (Rmult c) x) fs band bins)
  = map (Rmult (c * c)) (snd (goertzelSpectrum x fs band bins))
  /\ fst (goertzelSpectrum (map (Rmult c) x) fs band bins)
     = fst (goertzelSpectrum x fs band bins)
  /\ (c <> 0 ->
      argmax (snd (goertzelSpectrum (map (Rmult c) x) fs band bins))
      = argmax (snd (goertzelSpectrum x fs band bins))).
Proof.
  destruct band as [f0 f1].
  assert (Hp : snd (goertzelSpectrum (map (Rmult c) x) fs (f0, f1) bins)
               = map (Rmult (c * c))
                     (snd (goertzelSpectrum x fs (f0, f1) bins))).
  { unfold goertzelSpectrum; cbn [snd].
    rewrite (map_map (goertzelPower x fs) (Rmult (c * c))).
    apply map_ext. intros f. apply goertzelPower_scale. }
  split; [exact Hp | split; [reflexivity |]].
  intros Hc. rewrite Hp. apply argmax_scale. nra.
Qed.

Lemma spectral_peak_scale_invariant_witness :
  argmax (snd (goertzelSpectrum (map (Rmult 2) [1; 0; -1]) 30 (0.7, 3.0) 120))
  = argmax (snd (goertzelSpectrum [1; 0; -1] 30 (0.7, 3.0) 120)).
Proof.
  apply (proj2 (proj2 (spectral_peak_scale_invariant
                         2 [1; 0; -1] 30 (0.7, 3.0) 120))).
  lra.
Defined.

(** ** What the spectral estimate can display *)

Lemma spectrum_lengths (x : list R) (fs : R) (band : R * R) (bins : nat) :
  length (fst (goertzelSpectrum x fs band bins)) = bins
  /\ length (snd (goertzelSpectrum x fs band bins)) = bins.
Proof.
  destruct band as [f0 f1]. unfold goertzelSpectrum; cbn [fst snd].
  rewrite !length_map, length_seq. split; reflexivity.
Qed.

Lemma spectrum_freq_range (x : list R) (fs f0 f1 : R) (bins k : nat) :
  (2 <= bins)%nat -> f0 <= f1 -> (k < bins)%nat ->
  f0 <= nth k (fst (goertzelSpectrum x fs (f0, f1) bins)) 0 <= f1.
Proof.
  intros Hb Hf Hk. unfold goertzelSpectrum; cbn [fst].
  rewrite freqs_nth by exact Hk.
  pose proof (grid_fraction bins k Hb Hk) as Hfr. nra.
Qed.

Lemma Math_round_between (x : R) (lo hi : Z) :
  IZR lo <= x <= IZR hi -> (lo <= Math_round x <= hi)%Z.
Proof.
  intros [H1 H2]. split.
  - rewrite <- (Math_round_IZR lo). apply Math_round_mono; exact H1.
  - rewrite <- (Math_round_IZR hi). apply Math_round_mono; exact H2.
Qed.

(** The two values that [spectral] sets when the estimator runs. *)
Lemma spectral_run (st : St) (ui : Ui) :
  spectral st ui = ui
  \/ exists freqs powers,
      length freqs = 120%nat /\ length powers = 120%nat
      /\ Forall (fun p => 0 <= p) powers
      /\ (forall k, (k < 120)%nat -> 0.7 <= nth k freqs 0 <= 3.0)
      /\ spectral st ui
         = setSnr
             (if gtb (median powers) 0
              then (if truthy (Some (nth (argmax powers) powers 0
                                     / median powers))
                    then Some (IZR (Math_round
                                      (nth (argmax powers) powers 0
                                       / median powers * 10)) / 10)
                    else None)
              else None)
             (setHrBpm
                (Some (IZR (Math_round (nth (argmax powers) freqs 0 * 60))))
                ui).
Proof.
  unfold spectral.
  destruct (getLatestSegment (bvp st) (t st) 12) as [segment fsUsed].
  destruct (gtb _ _); [right | left; reflexivity].
  pose proof (spectrum_lengths segment fsUsed (0.7, 3.0) 120) as [Hlf Hlp].
  pose proof (fun k => spectrum_freq_range segment fsUsed 0.7 3.0 120 k
                         ltac:(lia) ltac:(lra)) as Hfr.
  assert (Hnn : Forall (fun p => 0 <= p)
                  (snd (goertzelSpectrum segment fsUsed (0.7, 3.0) 120))).
  { unfold goertzelSpectrum; cbn [snd]. apply Forall_forall.
    intros p Hp. apply in_map_iff in Hp. destruct Hp as [f [<- _]].
    apply goertzelPower_nonneg. }
  destruct (goertzelSpectrum segment fsUsed (0.7, 3.0) 120)
    as [freqs powers]. cbn [fst snd] in *.
  exists freqs, powers.
  split; [exact Hlf | split; [exact Hlp | split; [exact Hnn |]]].
  split; [exact Hfr |].
  destruct (gtb (median powers) 0); reflexivity.
Qed.

Lemma pushSample_estimate (snap : Ui) (st : St) (ui : Ui)
  (tSec gMean fs : R) :
  hrBpm (snd (pushSample snap st ui tSec gMean fs))
  = hrBpm (spectral (ingest st tSec gMean fs) ui)
  /\ snr (snd (pushSample snap st ui tSec gMean fs))
     = snr (spectral (ingest st tSec gMean fs) ui).
Proof. unfold pushSample. apply hrv_keeps_estimate. Qed.

(** X9.  A heart rate that [pushSample] sets is a whole number of beats
    per minute between 42 and 180: the spectral peak lies in the band
    0.7-3.0 Hz. *)
Theorem heart_rate_range (snap : Ui) (st : St) (ui : Ui) (tSec gMean fs : R) :
  let ui' := snd (pushSample snap st ui tSec gMean fs) in
  hrBpm ui' = hrBpm ui
  \/ exists n : Z, hrBpm ui' = Some (IZR n) /\ (42 <= n <= 180)%Z.
Proof.
  cbv zeta. destruct (pushSample_estimate snap st ui tSec gMean fs) as [-> _].
  destruct (spectral_run (ingest st tSec gMean fs) ui)
    as [-> | [freqs [powers [Hlf [Hlp [_ [Hfr ->]]]]]]];
    [left; reflexivity | right].
  eexists; split; [reflexivity |].
  apply Math_round_between.
  assert (Hk : (argmax powers < 120)%nat).
  { rewrite <- Hlp. apply argmax_bounds.
    destruct powers; [discriminate Hlp | discriminate]. }
  specialize (Hfr _ Hk). lra.
Qed.

(** X10.  After [pushSample] the quality ratio is what it was (estimator
    skipped), or absent (the median power is zero), or a multiple of 0.1
    that is at least 1: the peak power is never below the median. *)
Theorem quality_ratio_range
  (snap : Ui) (st : St) (ui : Ui) (tSec gMean fs : R) :
  let ui' := snd (pushSample snap st ui tSec gMean fs) in
  snr ui' = snr ui \/ snr ui' = None
  \/ exists n : Z, snr ui' = Some (IZR n / 10) /\ (10 <= n)%Z.
Proof.
  cbv zeta. destruct (pushSample_estimate snap st ui tSec gMean fs) as [_ ->].
  destruct (spectral_run (ingest st tSec gMean fs) ui)
    as [-> | [freqs [powers [Hlf [Hlp [Hnn [_ ->]]]]]]];
    [left; reflexivity | right].
  cbn [snr setSnr].
  destruct (gtb (median powers) 0) eqn:Em; [| left; reflexivity].
  apply gtb_true in Em.
  assert (Hne : powers <> []) by (destruct powers; discriminate).
  destruct (argmax_bounds powers Hne) as [Hk Hmax].
  assert (Hmed : 0 <= median powers <= nth (argmax powers) powers 0).
  { apply median_bounds; [exact Hne |].
    apply Forall_forall. intros p Hp. split.
    - rewrite Forall_forall in Hnn. apply Hnn, Hp.
    - destruct (In_nth _ _ 0 Hp) as [j [Hj <-]]. apply Hmax, Hj. }
  assert (Hq : 1 <= nth (argmax powers) powers 0 / median powers).
  { apply Rmult_le_reg_r with (median powers); [exact Em |].
    unfold Rdiv. rewrite Rmult_assoc, Rinv_l by lra. lra. }
  replace (truthy _) with true
    by (symmetry; apply truthy_Some; lra).
  right. eexists; split; [reflexivity |].
  apply Z.le_trans with (Math_round (IZR 10));
    [rewrite Math_round_IZR; lia | apply Math_round_mono; lra].
Qed.

(** ** The biquad stages *)

Lemma SQRT1_2_bounds : / 2 < SQRT1_2 < 1.
Proof.
  unfold SQRT1_2. split.
  - apply Rle_lt_trans with (sqrt (/ 2 * / 2));
      [rewrite sqrt_square; lra | apply sqrt_lt_1; lra].
  - apply Rlt_le_trans with (sqrt (1 * 1));
      [apply sqrt_lt_1; lra | rewrite sqrt_square; lra].
Qed.

(** [alpha] stays inside (-1, 1), so the normalising [a0 = 1 + alpha] is
    positive whatever the rates. *)
Lemma alpha_bounds (w0 : R) : -1 < sin w0 / (2 * SQRT1_2) < 1.
Proof.
  pose proof SQRT1_2_bounds as [Hq _].
  pose proof (SIN_bound w0) as [Hs1 Hs2].
  assert (Hd : 1 < 2 * SQRT1_2) by lra.
  split.
  - apply Rmult_lt_reg_r with (2 * SQRT1_2); [lra |].
    unfold Rdiv. rewrite Rmult_assoc, Rinv_l by lra. lra.
  - apply Rmult_lt_reg_r with (2 * SQRT1_2); [lra |].
    unfold Rdiv. rewrite Rmult_assoc, Rinv_l by lra. lra.
Qed.

(** X11.  Whatever the sampling rate and corner frequency, the high-pass
    stage blocks a constant input and the low-pass stage passes it
    unchanged: once settled on the constant [c] (outputs 0, respectively
    [c]), [step] returns 0, respectively [c], and leaves the filter as it
    is. *)
Theorem biquad_dc_response (fs fc c : R) :
  let h := set_history (makeBiquadHP fs fc) c c 0 0 in
  let l := set_history (makeBiquadLP fs fc) c c c c in
  bz0 h + bz1 h + bz2 h = 0
  /\ bz0 l + bz1 l + bz2 l = 1 + az1 l + az2 l
  /\ step h c = (0, h)
  /\ step l c = (c, l).
Proof.
  cbv zeta.
  pose proof (alpha_bounds (2 * PI * fc / fs)) as Ha.
  set (al := sin (2 * PI * fc / fs) / (2 * SQRT1_2)) in *.
  set (co := cos (2 * PI * fc / fs)).
  assert (Hhp : (1 + co) / 2 / (1 + al) + - (1 + co) / (1 + al)
                + (1 + co) / 2 / (1 + al) = 0) by (field; lra).
  assert (Hlp : (1 - co) / 2 / (1 + al) + (1 - co) / (1 + al)
                + (1 - co) / 2 / (1 + al)
                = 1 + -2 * co / (1 + al) + (1 - al) / (1 + al))
    by (field; lra).
  split; [exact Hhp | split; [exact Hlp | split]].
  - unfold step, set_history, makeBiquadHP, biquad.
    cbn [bz0 bz1 bz2 az1 az2 x1 x2 y1 y2]. fold al co.
    assert (Hy : (1 + co) / 2 / (1 + al) * c + - (1 + co) / (1 + al) * c
                 + (1 + co) / 2 / (1 + al) * c
                 - -2 * co / (1 + al) * 0 - (1 - al) / (1 + al) * 0 = 0)
      by (field; lra).
    rewrite Hy. reflexivity.
  - unfold step, set_history, makeBiquadLP, biquad.
    cbn [bz0 bz1 bz2 az1 az2 x1 x2 y1 y2]. fold al co.
    assert (Hy : (1 - co) / 2 / (1 + al) * c + (1 - co) / (1 + al) * c
                 + (1 - co) / 2 / (1 + al) * c
                 - -2 * co / (1 + al) * c - (1 - al) / (1 + al) * c = c)
      by (field; lra).
    rewrite Hy. reflexivity.
Qed.

Lemma biquad_stable (fs fc : R) (type : FilterType) :
  0 < fc -> 2 * fc < fs -> stable (biquad fs fc SQRT1_2 type).
Proof.
  intros Hfc Hfs.
  assert (Hfs0 : 0 < fs) by lra.
  assert (Hw : 0 < 2 * PI * fc / fs < PI).
  { pose proof PI_RGT_0 as Hpi. split.
    - apply Rdiv_lt_0_compat; [nra | exact Hfs0].
    - apply Rmult_lt_reg_r with fs; [exact Hfs0 |].
      unfold Rdiv. rewrite Rmult_assoc, Rinv_l by lra. nra. }
  pose proof (sin_gt_0 _ (proj1 Hw) (proj2 Hw)) as Hsin.
  pose proof (sin2_cos2 (2 * PI * fc / fs)) as Hsc. unfold Rsqr in Hsc.
  pose proof (alpha_bounds (2 * PI * fc / fs)) as Ha.
  pose proof SQRT1_2_bounds as [Hq _].
  set (al := sin (2 * PI * fc / fs) / (2 * SQRT1_2)) in *.
  set (co := cos (2 * PI * fc / fs)) in *.
  assert (Hal : 0 < al).
  { unfold al. apply Rdiv_lt_0_compat; lra. }
  assert (Hco : -1 < co < 1) by (split; nra).
  assert (Hi : 0 < / (1 + al)) by (apply Rinv_0_lt_compat; lra).
  assert (Ha2 : (1 - al) / (1 + al) = 2 * / (1 + al) - 1) by (field; lra).
  assert (Hi1 : / (1 + al) < 1).
  { rewrite <- Rinv_1 at 2. apply Rinv_lt_contravar; lra. }
  unfold stable.
  assert (Hgoal : -1 < (1 - al) / (1 + al) < 1
                  /\ Rabs (-2 * co / (1 + al)) < 1 + (1 - al) / (1 + al)).
  { rewrite Ha2. split; [lra |].
    apply Rabs_def1; unfold Rdiv; nra. }
  destruct type; unfold biquad; cbn [az1 az2]; fold al co; exact Hgoal.
Qed.

(** X12.  Both filters that [loop] installs are stable at every tick: the
    sampling rate is at least 10 Hz, so the corner frequencies 0.7 Hz and
    3.0 Hz lie below half of it and the poles inside the unit circle. *)
Theorem loop_filters_stable (st : St) (now : R) :
  stable (hp (fst (clockTick st now)))
  /\ stable (lp (fst (clockTick st now))).
Proof.
  pose proof (clockTick_rate_bounds st now) as Hfs.
  split; apply biquad_stable; unfold clockTick in *; cbn [snd] in Hfs; lra.
Qed.

(** ** Invariants of the pipeline state *)

Lemma pushAll_invariant (P : St -> Prop) (snap : Ui) :
  (forall st ui tSec gMean fs,
     P st -> P (fst (pushSample snap st ui tSec gMean fs))) ->
  forall ticks st ui, P st -> P (fst (pushAll snap st ui ticks)).
Proof.
  intros Hstep. induction ticks as [| k ticks IH]; intros st ui HP.
  - exact HP.
  - cbn [pushAll].
    specialize (Hstep st ui (tickT k) (tickG k) (tickFs k) HP).
    destruct (pushSample snap st ui (tickT k) (tickG k) (tickFs k))
      as [st1 ui1]. apply IH. exact Hstep.
Qed.

Lemma pushSample_aligned (snap : Ui) (st : St) (ui : Ui)
  (tSec gMean fs : R) :
  aligned st -> aligned (fst (pushSample snap st ui tSec gMean fs)).
Proof.
  intros [Hg Hb]. unfold aligned.
  destruct (pushSample_buffers snap st ui tSec gMean fs)
    as [-> [-> [-> _]]].
  rewrite !length_skipn, !length_app, Hg, Hb. split; reflexivity.
Qed.

(** X13.  [pushSample] keeps the three buffers aligned (same length), and
    so they are after any sequence of ticks from the initial state; the
    length grows by one per tick minus the entries trimmed. *)
Theorem buffers_stay_aligned (snap : Ui) (st : St) (ui : Ui)
  (tSec gMean fs : R) :
  (aligned st ->
   let st' := fst (pushSample snap st ui tSec gMean fs) in
   aligned st'
   /\ length (t st')
      = (length (t st) + 1
         - trimCount (tSec - maxBufSec st) (t st ++ [tSec]))%nat)
  /\ forall ticks, aligned (fst (pushAll snap initialSt initialUi ticks)).
Proof.
  split.
  - intros Ha; cbv zeta. split; [apply pushSample_aligned; exact Ha |].
    destruct (pushSample_buffers snap st ui tSec gMean fs) as [-> _].
    rewrite length_skipn, length_app. reflexivity.
  - intros ticks. apply (pushAll_invariant aligned).
    + intros; apply pushSample_aligned; assumption.
    + split; reflexivity.
Qed.

Lemma buffers_stay_aligned_witness :
  aligned (fst (pushSample initialUi initialSt initialUi 1 128 30)).
Proof.
  apply (proj1 (buffers_stay_aligned initialUi initialSt initialUi 1 128 30)).
  split; reflexivity.
Defined.

Lemma detectPeakAndIBI_interval (st : St) (fs ibi : R) :
  fst (detectPeakAndIBI st fs) = Some ibi -> 0.33 < ibi.
Proof.
  unfold detectPeakAndIBI.
  destruct (length (bvp st) <? 5)%nat; [discriminate |].
  destruct (isPeak st fs); [| discriminate].
  destruct (ltb (lastPeakT st) 0) eqn:El; cbn [orb].
  - apply ltb_true in El. assert (H : lastPeakT st <= 0) by lra.
    apply gtb_false in H. rewrite H. discriminate.
  - destruct (gtb (_ - lastPeakT st) 0.33) eqn:Ed; [| discriminate].
    apply gtb_true in Ed.
    destruct (gtb (lastPeakT st) 0); [| discriminate].
    cbn [fst]. intros [= <-]. exact Ed.
Qed.

Lemma hrv_ibis (snap : Ui) (st : St) (ui : Ui) (fs : R) :
  ibis (fst (hrv snap st ui fs)) = ibis st
  \/ exists ibi, 0.33 < ibi
                 /\ ibis (fst (hrv snap st ui fs))
                    = capIbis (ibis st ++ [ibi]).
Proof.
  unfold hrv.
  pose proof (detectPeakAndIBI_frame st fs) as Hf.
  pose proof (detectPeakAndIBI_interval st fs) as Hi.
  destruct (detectPeakAndIBI st fs) as [[ibi |] st1]; cbn [fst snd] in *.
  - destruct (truthy (Some ibi)).
    + right. exists ibi. split; [apply Hi; reflexivity |].
      destruct Hf as [-> | ->]; reflexivity.
    + left. destruct Hf as [-> | ->]; reflexivity.
  - left. destruct Hf as [-> | ->]; reflexivity.
Qed.

Lemma capIbis_ok (l : list R) (x : R) :
  (length l <= 20)%nat -> Forall (fun ibi => 0.33 < ibi) l -> 0.33 < x ->
  (length (capIbis (l ++ [x])) <= 20)%nat
  /\ Forall (fun ibi => 0.33 < ibi) (capIbis (l ++ [x])).
Proof.
  intros Hlen Hall Hx.
  assert (Hall' : Forall (fun ibi => 0.33 < ibi) (l ++ [x])).
  { apply Forall_app; split; [exact Hall | repeat constructor; exact Hx]. }
  unfold capIbis, shift. destruct (20 <? length (l ++ [x]))%nat eqn:E.
  - destruct (l ++ [x]) as [| y l'] eqn:El.
    + simpl; split; [lia | constructor].
    + assert (Hl : length (l ++ [x]) = S (length l')) by (rewrite El; reflexivity).
      rewrite length_app in Hl; simpl in Hl.
      cbn [tl]. split; [lia | inversion Hall'; assumption].
  - apply Nat.ltb_ge in E. split; [exact E | exact Hall'].
Qed.

Lemma pushSample_ibisOk (snap : Ui) (st : St) (ui : Ui)
  (tSec gMean fs : R) :
  ibisOk st -> ibisOk (fst (pushSample snap st ui tSec gMean fs)).
Proof.
  intros [Hlen Hall]. unfold ibisOk, pushSample.
  destruct (hrv_ibis snap (ingest st tSec gMean fs)
              (spectral (ingest st tSec gMean fs) ui) fs)
    as [-> | [ibi [Hi ->]]]; rewrite ingest_ibis.
  - split; assumption.
  - apply capIbis_ok; assumption.
Qed.

(** X14.  [pushSample] keeps the interval set within 20 entries, all of
    them longer than 0.33 s; from the initial state this holds after any
    sequence of ticks. *)
Theorem ibis_stay_bounded (snap : Ui) (st : St) (ui : Ui)
  (tSec gMean fs : R) :
  (ibisOk st -> ibisOk (fst (pushSample snap st ui tSec gMean fs)))
  /\ forall ticks, ibisOk (fst (pushAll snap initialSt initialUi ticks)).
Proof.
  split; [apply pushSample_ibisOk |].
  intros ticks. apply (pushAll_invariant ibisOk).
  - intros; apply pushSample_ibisOk; assumption.
  - split; [simpl; lia | constructor].
Qed.

Lemma ibis_stay_bounded_witness :
  ibisOk (fst (pushSample initialUi initialSt initialUi 1 128 30)).
Proof.
  apply (proj1 (ibis_stay_bounded initialUi initialSt initialUi 1 128 30)).
  split; [simpl; lia | constructor].
Defined.

Lemma strictlyIncreasing_cons (a : R) (l : list R) :
  strictlyIncreasing (a :: l) ->
  strictlyIncreasing l /\ Forall (fun x => a < x) l.
Proof.
  revert a; induction l as [| b l IH]; intros a H.
  - split; [intros i x y Hx; destruct i; discriminate Hx | constructor].
  - assert (Hab : a < b) by (apply (H 0%nat); reflexivity).
    assert (Hl : strictlyIncreasing (b :: l)).
    { intros i x y Hx Hy. apply (H (S i)); assumption. }
    split; [exact Hl |].
    constructor; [exact Hab |].
    destruct (IH b Hl) as [_ Hall].
    apply (Forall_impl _ (fun x (Hx : b < x) => Rlt_trans _ _ _ Hab Hx) Hall).
Qed.

Lemma trimCount_filter (cutoff : R) (l : list R) :
  strictlyIncreasing l ->
  skipn (trimCount cutoff l) l = filter (fun x => leb cutoff x) l.
Proof.
  induction l as [| a l IH]; intros Hs; [reflexivity |].
  destruct (strictlyIncreasing_cons a l Hs) as [Hl Hall].
  cbn [trimCount filter]. destruct (ltb a cutoff) eqn:E.
  - apply ltb_true in E.
    replace (leb cutoff a) with false by (symmetry; apply leb_false; lra).
    cbn [skipn]. apply IH; exact Hl.
  - apply ltb_false in E.
    replace (leb cutoff a) with true by (symmetry; apply leb_true; lra).
    cbn [skipn]. f_equal. symmetry.
    apply forallb_filter_id, forallb_forall. intros x Hx.
    rewrite Forall_forall in Hall. specialize (Hall x Hx).
    apply leb_true; lra.
Qed.

(** X15.  When the timestamps, the new one included, are strictly
    increasing, the buffer after [pushSample] holds exactly the ticks that
    are at most [maxBufSec] older than the new one: nothing younger is
    ever dropped, nothing older is kept. *)
Theorem trim_keeps_exactly_the_window (snap : Ui) (st : St) (ui : Ui)
  (tSec gMean fs : R) :
  strictlyIncreasing (t st ++ [tSec]) ->
  t (fst (pushSample snap st ui tSec gMean fs))
  = filter (fun x => leb (tSec - maxBufSec st) x) (t st ++ [tSec]).
Proof.
  intros Hs.
  destruct (pushSample_buffers snap st ui tSec gMean fs) as [-> _].
  apply trimCount_filter; exact Hs.
Qed.

Lemma trim_keeps_exactly_the_window_witness :
  t (fst (pushSample initialUi initialSt initialUi 1 128 30))
  = filter (fun x => leb (1 - maxBufSec initialSt) x) (t initialSt ++ [1]).
Proof.
  apply (trim_keeps_exactly_the_window initialUi initialSt initialUi 1 128 30).
  intros [| [| i]] a b Ha Hb; discriminate Hb.
Defined.

(** ** The sampling clock, further *)

Lemma instFps_bounds (dt : R) : 0 < 1 / Math_max dt (1 / 120) <= 120.
Proof.
  unfold Math_max.
  assert (Hm : 1 / 120 <= Rmax dt (1 / 120)) by apply Rmax_r.
  assert (Hpos : 0 < Rmax dt (1 / 120)) by lra.
  split.
  - apply Rdiv_lt_0_compat; lra.
  - apply Rmult_le_reg_r with (Rmax dt (1 / 120)); [exact Hpos |].
    unfold Rdiv. rewrite Rmult_assoc, Rinv_l by lra. lra.
Qed.

Lemma clamp_IZR (n lo hi : Z) :
  clamp (IZR n) (IZR lo) (IZR hi) = IZR (Z.max lo (Z.min hi n)).
Proof.
  unfold clamp, Math_max, Math_min.
  rewrite <- (Rmin_comm (IZR n)), <- (Z.min_comm n).
  destruct (Z_le_gt_dec n hi) as [H | H].
  - rewrite Z.min_l by lia. rewrite Rmin_left by (apply IZR_le; lia).
    destruct (Z_le_gt_dec lo n) as [H' | H'].
    + rewrite Z.max_r by lia. apply Rmax_right, IZR_le; lia.
    + rewrite Z.max_l by lia. apply Rmax_left, IZR_le; lia.
  - rewrite Z.min_r by lia. rewrite Rmin_right by (apply IZR_le; lia).
    destruct (Z_le_gt_dec lo hi) as [H' | H'].
    + rewrite Z.max_r by lia. apply Rmax_right, IZR_le; lia.
    + rewrite Z.max_l by lia. apply Rmax_left, IZR_le; lia.
Qed.

(** X16.  At every tick the instantaneous rate lies in (0, 120], the
    moving average moves one tenth of the way towards it, it stays in
    (0, 120] once there (as it is from the initial 30), and the sampling
    rate handed to the filters is a whole number between 10 and 90. *)
Theorem clock_average_contracts (st : St) (now : R) :
  let instFps := 1 / Math_max ((now - lastTs st) / 1000) (1 / 120) in
  let st' := fst (clockTick st now) in
  0 < instFps <= 120
  /\ fpsEMA st' - instFps = 0.9 * (fpsEMA st - instFps)
  /\ (0 < fpsEMA st <= 120 -> 0 < fpsEMA st' <= 120)
  /\ exists n : Z, snd (clockTick st now) = IZR n /\ (10 <= n <= 90)%Z.
Proof.
  cbv zeta.
  pose proof (instFps_bounds ((now - lastTs st) / 1000)) as Hi.
  split; [exact Hi | split; [| split]].
  - unfold clockTick; cbn [fst fpsEMA]. lra.
  - intros H. unfold clockTick; cbn [fst fpsEMA]. lra.
  - unfold clockTick; cbn [snd].
    eexists. split; [apply (clamp_IZR _ 10 90) | lia].
Qed.

Lemma clock_average_contracts_witness :
  0 < fpsEMA (fst (clockTick initialSt 16)) <= 120.
Proof.
  apply (proj1 (proj2 (proj2 (clock_average_contracts initialSt 16)))).
  simpl; lra.
Defined.

(** ** RMSSD, further *)

Lemma diffs_shift (c : R) (l : list R) :
  diffs (map (fun s => s * 1000) (map (Rplus c) l))
  = diffs (map (fun s => s * 1000) l).
Proof.
  induction l as [| a [| b l] IH]; [reflexivity | reflexivity |].
  change (diffs (map (fun s => s * 1000) (map (Rplus c) (a :: b :: l))))
    with (((c + b) * 1000 - (c + a) * 1000)
          :: diffs (map (fun s => s * 1000) (map (Rplus c) (b :: l)))).
  change (diffs (map (fun s => s * 1000) (a :: b :: l)))
    with ((b * 1000 - a * 1000)
          :: diffs (map (fun s => s * 1000) (b :: l))).
  rewrite IH. f_equal. lra.
Qed.

Lemma diffs_constant (v : R) (n : nat) :
  map (fun d => d * d) (diffs (map (fun s => s * 1000) (repeat v n)))
  = repeat 0 (n - 1).
Proof.
  induction n as [| [| n] IH]; [reflexivity | reflexivity |].
  change (repeat v (S (S n))) with (v :: v :: repeat v n).
  change (repeat v (S n)) with (v :: repeat v n) in IH.
  cbn [map diffs] in *. rewrite IH.
  replace (S (S n) - 1)%nat with (S (S n - 1)) by lia.
  cbn [repeat]. f_equal. lra.
Qed.

Lemma sum_repeat_0 (n : nat) : sum (repeat 0 n) = 0.
Proof.
  induction n as [| n IH]; [reflexivity |].
  cbn [repeat]. rewrite sum_cons, IH. lra.
Qed.

(** X17.  [computeRMSSD] gives a value exactly when there are at least 3
    intervals; the value is never negative, it is 0 when all intervals are
    equal, and it does not change when the same amount is added to every
    interval. *)
Theorem computeRMSSD_properties (ibisSec : list R) :
  ((3 <= length ibisSec)%nat <-> exists r, computeRMSSD ibisSec = Some r)
  /\ (forall r, computeRMSSD ibisSec = Some r -> 0 <= r)
  /\ (forall v n, (3 <= n)%nat -> ibisSec = repeat v n ->
        computeRMSSD ibisSec = Some 0)
  /\ (forall c, computeRMSSD (map (Rplus c) ibisSec) = computeRMSSD ibisSec).
Proof.
  split; [| split; [| split]].
  - unfold computeRMSSD. destruct (length ibisSec <? 3)%nat eqn:E.
    + apply Nat.ltb_lt in E. split; [lia | intros [r Hr]; discriminate].
    + apply Nat.ltb_ge in E. split; [intros _; eexists; reflexivity | tauto].
  - intros r. unfold computeRMSSD.
    destruct (length ibisSec <? 3)%nat; [discriminate |].
    intros [= <-]. apply sqrt_pos.
  - intros v n Hn ->. unfold computeRMSSD.
    rewrite repeat_length.
    replace (n <? 3)%nat with false by (symmetry; apply Nat.ltb_ge; exact Hn).
    rewrite diffs_constant, sum_repeat_0.
    unfold Rdiv. rewrite Rmult_0_l, sqrt_0. reflexivity.
  - intros c. unfold computeRMSSD. rewrite length_map, diffs_shift.
    reflexivity.
Qed.

Lemma computeRMSSD_properties_witness :
  computeRMSSD [0.8; 0.8; 0.8] = Some 0.
Proof.
  apply (proj1 (proj2 (proj2 (computeRMSSD_properties [0.8; 0.8; 0.8])))
           0.8 3%nat); [lia | reflexivity].
Defined.

(** ** Focus score and the bars, further *)

Lemma clamp_mono (a b lo hi : R) :
  a <= b -> clamp a lo hi <= clamp b lo hi.
Proof.
  intros H. unfold clamp, Math_max, Math_min.
  apply Rmax_case_strong; apply Rmax_case_strong;
    apply Rmin_case_strong; apply Rmin_case_strong; intros; lra.
Qed.

Lemma focusScoreOf_round (hrZ rmZ : R) :
  Math_max 0 (Math_min 100 (IZR (Math_round (50 + 20 * hrZ + 30 * rmZ))))
  = clamp (IZR (Math_round (50 + 20 * hrZ + 30 * rmZ))) 0 100.
Proof. reflexivity. Qed.

(** X18.  The focus score is a whole number between 0 and 100; with the
    baselines fixed it does not decrease when the heart rate rises and does
    not increase when the RMSSD rises (non-zero values). *)
Theorem focus_score_monotone (bHR bRM : option R) :
  (forall hr rm, exists n : Z,
      focusScoreOf hr bHR bRM rm = IZR n /\ (0 <= n <= 100)%Z)
  /\ (forall h1 h2 rm, h1 <> 0 -> h2 <> 0 -> h1 <= h2 ->
        focusScoreOf (Some h1) bHR bRM rm
        <= focusScoreOf (Some h2) bHR bRM rm)
  /\ (forall hr r1 r2, r1 <> 0 -> r2 <> 0 -> r1 <= r2 ->
        focusScoreOf hr bHR bRM (Some r2)
        <= focusScoreOf hr bHR bRM (Some r1)).
Proof.
  assert (Hd1 : forall b, 0 < / Math_max 5 (0.1 * b)).
  { intros b. apply Rinv_0_lt_compat. unfold Math_max.
    apply Rlt_le_trans with 5; [lra | apply Rmax_l]. }
  assert (Hd2 : forall b, 0 < / Math_max 10 (0.25 * b)).
  { intros b. apply Rinv_0_lt_compat. unfold Math_max.
    apply Rlt_le_trans with 10; [lra | apply Rmax_l]. }
  split; [| split].
  - intros hr rm. unfold focusScoreOf.
    eexists. split; [apply (clamp_IZR _ 0 100) | lia].
  - intros h1 h2 rm H1 H2 Hle. unfold focusScoreOf.
    apply truthy_Some in H1, H2. rewrite H1, H2. cbn [nullish].
    rewrite !focusScoreOf_round. apply clamp_mono, IZR_le, Math_round_mono.
    specialize (Hd1 (nullish bHR 70)).
    unfold Rdiv. nra.
  - intros hr r1 r2 H1 H2 Hle. unfold focusScoreOf.
    apply truthy_Some in H1, H2. rewrite H1, H2. cbn [nullish].
    rewrite !focusScoreOf_round. apply clamp_mono, IZR_le, Math_round_mono.
    specialize (Hd2 (nullish bRM 40)).
    unfold Rdiv. nra.
Qed.

Lemma focus_score_monotone_witness :
  focusScoreOf (Some 70) None None (Some 40)
  <= focusScoreOf (Some 90) None None (Some 40).
Proof.
  apply (proj1 (proj2 (focus_score_monotone None None)) 70 90 (Some 40));
    lra.
Defined.

(** X19.  For a non-zero baseline the two bars of [SympaParasympaBars] are
    whole percentages between 0 and 100 that add up to 100; the
    parasympathetic bar is full from 1.6 times a positive baseline on and
    empty for an RMSSD of 0. *)
Theorem sympa_parasympa_bars (rmssd0 : option R) (baselineRMSSD0 : R) :
  baselineRMSSD0 <> 0 ->
  let paras := fst (sympaParasympa rmssd0 baselineRMSSD0) in
  let sympa := snd (sympaParasympa rmssd0 baselineRMSSD0) in
  (0 <= paras <= 100)%Z /\ (0 <= sympa <= 100)%Z
  /\ (paras + sympa = 100)%Z
  /\ (forall r, rmssd0 = Some r -> 0 < baselineRMSSD0 ->
        1.6 * baselineRMSSD0 <= r -> paras = 100%Z)
  /\ (rmssd0 = Some 0 -> paras = 0%Z).
Proof.
  intros Hb; cbv zeta. unfold sympaParasympa; cbn [fst snd].
  set (p := clamp01 (nullish rmssd0 baselineRMSSD0 / (baselineRMSSD0 * 1.6))).
  assert (Hp : 0 <= p <= 1) by (apply (clamp_bounds _ 0 1); lra).
  assert (Hr : (0 <= Math_round (p * 100) <= 100)%Z)
    by (apply Math_round_between; simpl; lra).
  split; [exact Hr | split; [lia | split; [lia | split]]].
  - intros r -> Hpos Hge. unfold p. cbn [nullish].
    assert (H1 : 1 <= r / (baselineRMSSD0 * 1.6)).
    { apply Rmult_le_reg_r with (baselineRMSSD0 * 1.6); [lra |].
      unfold Rdiv. rewrite Rmult_assoc, Rinv_l by lra. lra. }
    unfold clamp01, clamp, Math_max, Math_min.
    rewrite Rmin_left by exact H1. rewrite Rmax_right by lra.
    replace (1 * 100) with (IZR 100) by lra. apply Math_round_IZR.
  - intros ->. unfold p. cbn [nullish].
    unfold Rdiv. rewrite Rmult_0_l.
    unfold clamp01, clamp, Math_max, Math_min.
    rewrite Rmin_right by lra. rewrite Rmax_left by lra.
    replace (0 * 100) with (IZR 0) by lra. apply Math_round_IZR.
Qed.

Lemma sympa_parasympa_bars_witness :
  (fst (sympaParasympa (Some 80%R) 40%R)
   + snd (sympaParasympa (Some 80%R) 40%R) = 100)%Z.
Proof.
  apply (sympa_parasympa_bars (Some 80) 40). lra.
Defined.

(** X20.  [calibrateBaseline] never changes the displayed metrics; it does
    nothing unless both heart rate and RMSSD are present and non-zero, and
    then both become the baselines, after which the focus score of these
    same values is 50. *)
Theorem calibrate_then_score_50 (ui : Ui) :
  let ui' := calibrateBaseline ui in
  hrBpm ui' = hrBpm ui /\ rmssd ui' = rmssd ui
  /\ focusScore ui' = focusScore ui /\ snr ui' = snr ui
  /\ (truthy (hrBpm ui) && truthy (rmssd ui) = false -> ui' = ui)
  /\ (forall h r, hrBpm ui = Some h -> rmssd ui = Some r ->
        h <> 0 -> r <> 0 ->
        baselineHR ui' = Some h /\ baselineRMSSD ui' = Some r
        /\ focusScoreOf (hrBpm ui') (baselineHR ui') (baselineRMSSD ui')
             (rmssd ui') = 50).
Proof.
  cbv zeta. unfold calibrateBaseline.
  destruct (truthy (hrBpm ui) && truthy (rmssd ui)) eqn:E.
  - do 4 (split; [reflexivity |]). split; [discriminate |].
    intros h r Hh Hr Hh0 Hr0. cbn [hrBpm rmssd baselineHR baselineRMSSD].
    rewrite Hh, Hr. split; [reflexivity | split; [reflexivity |]].
    unfold focusScoreOf. apply truthy_Some in Hh0, Hr0.
    rewrite Hh0, Hr0. cbn [nullish].
    replace (50 + 20 * ((h - h) / Math_max 5 (0.1 * h))
             + 30 * ((r - r) / Math_max 10 (0.25 * r)))
      with (IZR 50) by (unfold Rdiv; lra).
    rewrite Math_round_IZR. unfold Math_max, Math_min.
    rewrite Rmin_right by lra. apply Rmax_right; lra.
  - do 4 (split; [reflexivity |]). split; [reflexivity |].
    intros h r Hh Hr Hh0 Hr0. rewrite Hh, Hr in E.
    apply truthy_Some in Hh0, Hr0. rewrite Hh0, Hr0 in E. discriminate.
Qed.

Lemma calibrate_then_score_50_witness :
  let ui := setRmssd (Some 35) (setHrBpm (Some 72) initialUi) in
  baselineHR (calibrateBaseline ui) = Some 72
  /\ baselineRMSSD (calibrateBaseline ui) = Some 35
  /\ focusScoreOf (hrBpm (calibrateBaseline ui))
       (baselineHR (calibrateBaseline ui))
       (baselineRMSSD (calibrateBaseline ui))
       (rmssd (calibrateBaseline ui)) = 50.
Proof.
  cbv zeta.
  apply (proj2 (proj2 (proj2 (proj2 (proj2 (calibrate_then_score_50
           (setRmssd (Some 35) (setHrBpm (Some 72) initialUi)))))))
           72 35); [reflexivity | reflexivity | lra | lra].
Defined.

(** ** Region of interest *)

(** X21.  For a detected face at most 1/0.6 frames wide and 1/0.3 frames
    high (any normalised box is), the region of interest cut from it lies
    inside the frame; its size is 60 % by 30 % of the face. *)
Theorem roiFromFace_inside_frame (face : Rect) :
  0 <= rect_w face -> rect_w face * 0.6 <= 1 ->
  0 <= rect_h face -> rect_h face * 0.30 <= 1 ->
  let roi := roiFromFace face in
  0 <= rect_x roi /\ rect_x roi + rect_w roi <= 1
  /\ 0 <= rect_y roi /\ rect_y roi + rect_h roi <= 1
  /\ rect_w roi = rect_w face * 0.6 /\ rect_h roi = rect_h face * 0.30.
Proof.
  intros Hw0 Hw1 Hh0 Hh1; cbv zeta. unfold roiFromFace.
  cbn [rect_x rect_y rect_w rect_h].
  pose proof (clamp_bounds (rect_x face + rect_w face * 0.2) 0
                (1 - rect_w face * 0.6) ltac:(lra)) as Hx.
  pose proof (clamp_bounds (rect_y face + rect_h face * 0.18) 0
                (1 - rect_h face * 0.30) ltac:(lra)) as Hy.
  repeat split; lra.
Qed.

Lemma roiFromFace_inside_frame_witness :
  0 <= rect_x (roiFromFace (mkRect 0.9 0.1 0.5 0.5))
  /\ rect_x (roiFromFace (mkRect 0.9 0.1 0.5 0.5))
     + rect_w (roiFromFace (mkRect 0.9 0.1 0.5 0.5)) <= 1.
Proof.
  pose proof (roiFromFace_inside_frame (mkRect 0.9 0.1 0.5 0.5)
                ltac:(simpl; lra) ltac:(simpl; lra)
                ltac:(simpl; lra) ltac:(simpl; lra)) as H.
  cbv zeta in H. destruct H as [H1 [H2 _]]. split; assumption.
Defined.

(** ** Waveform drawing *)

Lemma nth_map_seq_any {A : Type} (g : nat -> A) (d : A) (n : nat) :
  forall start i,
    (i < n)%nat -> nth i (map g (seq start n)) d = g (start + i)%nat.
Proof.
  induction n as [| n IH]; intros start i Hi; [lia |].
  cbn [seq map]. destruct i as [| i]; cbn [nth].
  - rewrite Nat.add_0_r; reflexivity.
  - rewrite IH by lia. f_equal; lia.
Qed.

Lemma fold_min_spec (l : list R) :
  forall m0,
    let m := fold_left (fun min val => if ltb val min then val else min)
                       l m0 in
    m <= m0 /\ Forall (fun v => m <= v) l.
Proof.
  induction l as [| v l IH]; intros m0; cbv zeta; cbn [fold_left].
  - split; [lra | constructor].
  - destruct (ltb v m0) eqn:E.
    + apply ltb_true in E. destruct (IH v) as [H1 H2].
      split; [lra | constructor; assumption].
    + apply ltb_false in E. destruct (IH m0) as [H1 H2].
      split; [exact H1 | constructor; [lra | exact H2]].
Qed.

Lemma fold_max_spec (l : list R) :
  forall m0,
    let m := fold_left (fun max val => if gtb val max then val else max)
                       l m0 in
    m0 <= m /\ Forall (fun v => v <= m) l.
Proof.
  induction l as [| v l IH]; intros m0; cbv zeta; cbn [fold_left].
  - split; [lra | constructor].
  - destruct (gtb v m0) eqn:E.
    + apply gtb_true in E. destruct (IH v) as [H1 H2].
      split; [lra | constructor; assumption].
    + apply gtb_false in E. destruct (IH m0) as [H1 H2].
      split; [exact H1 | constructor; [lra | exact H2]].
Qed.

(** X22.  For a segment of at least two samples on a canvas of
    non-negative size, [drawWaveform] strokes one point per sample, every
    point lies on the canvas, and the path runs from the left edge to the
    right edge. *)
Theorem waveform_inside_canvas (width height : R) (segment : list R) :
  0 <= width -> 0 <= height -> (2 <= length segment)%nat ->
  let points := waveformPoints width height segment in
  length points = length segment
  /\ Forall (fun p => 0 <= fst p <= width /\ 0 <= snd p <= height) points
  /\ fst (nth 0 points (0, 0)) = 0
  /\ fst (nth (length segment - 1) points (0, 0)) = width.
Proof.
  intros Hw Hh Hlen; cbv zeta.
  destruct segment as [| s0 rest]; [simpl in Hlen; lia |].
  unfold waveformPoints. set (segment := s0 :: rest) in *.
  set (mn := fold_left (fun min val => if ltb val min then val else min)
                       segment s0).
  set (mx := fold_left (fun max val => if gtb val max then val else max)
                       segment s0).
  destruct (fold_min_spec segment s0) as [_ Hmin]. fold mn in Hmin.
  destruct (fold_max_spec segment s0) as [_ Hmax]. fold mx in Hmax.
  set (range := if eqb (mx - mn) 0 then 1 else mx - mn).
  assert (H1 : 1 <= INR (length segment) - 1).
  { apply le_INR in Hlen. change (INR 2) with (1 + 1) in Hlen. lra. }
  split; [rewrite length_map, length_seq; reflexivity | split; [| split]].
  - apply Forall_forall. intros p Hp. apply in_map_iff in Hp.
    destruct Hp as [i [<- Hi]]. apply in_seq in Hi. cbn [fst snd].
    pose proof (grid_fraction (length segment) i Hlen ltac:(lia)) as Hfr.
    assert (Hv : mn <= nth i segment 0 <= mx).
    { split; [apply (nth_Forall _ _ _ Hmin) | apply (nth_Forall _ _ _ Hmax)];
        lia. }
    assert (Hy : 0 <= (nth i segment 0 - mn) / range <= 1).
    { unfold range. destruct (eqb (mx - mn) 0) eqn:E.
      - apply eqb_true in E. unfold Rdiv. rewrite Rinv_1. lra.
      - assert (Hpos : 0 < mx - mn).
        { destruct (Rle_lt_dec (mx - mn) 0) as [Hle | Hlt]; [| exact Hlt].
          assert (E' : eqb (mx - mn) 0 = true) by (apply eqb_true; lra).
          congruence. }
        split.
        + apply Rmult_le_pos; [lra | left; apply Rinv_0_lt_compat; exact Hpos].
        + apply Rmult_le_reg_r with (mx - mn); [exact Hpos |].
          unfold Rdiv. rewrite Rmult_assoc, Rinv_l by lra. lra. }
    split; nra.
  - rewrite nth_map_seq_any by lia. cbn [fst Nat.add].
    change (INR 0) with 0. unfold Rdiv. lra.
  - rewrite nth_map_seq_any by lia. cbn [fst Nat.add].
    rewrite minus_INR by lia. change (INR 1) with 1.
    unfold Rdiv. rewrite Rinv_r by lra. lra.
Qed.

Lemma waveform_inside_canvas_witness :
  length (waveformPoints 300 100 [1; 5; 2]) = 3%nat.
Proof.
  apply (waveform_inside_canvas 300 100 [1; 5; 2]); [lra | lra | simpl; lia].
Defined.

(** ** Flat signals *)

Lemma sum_repeat (c : R) (n : nat) : sum (repeat c n) = INR n * c.
Proof.
  induction n as [| n IH]; [unfold sum; simpl; lra |].
  cbn [repeat]. rewrite sum_cons, IH, S_INR. lra.
Qed.

Lemma threshold_constant (v : R) (n : nat) :
  threshold (repeat v (S n)) = Some v.
Proof.
  unfold threshold. change (repeat v (S n)) with (v :: repeat v n) at 1.
  cbv iota beta. rewrite repeat_length, sum_repeat.
  assert (Hn : 0 < INR (S n)) by (apply lt_0_INR; lia).
  replace (INR (S n) * v / INR (S n)) with v by (field; lra).
  rewrite map_repeat, sum_repeat.
  replace (INR (S n) * ((v - v) * (v - v)) / Math_max 1 (INR (S n) - 1))
    with 0 by (unfold Rdiv; ring).
  rewrite sqrt_0. f_equal. lra.
Qed.

Lemma isPeak_local_max (st : St) (fs : R) :
  isPeak st fs = true ->
  nth (length (bvp st) - 2 - 1) (bvp st) 0
  < nth (length (bvp st) - 2) (bvp st) 0
  /\ nth (length (bvp st) - 2 + 1) (bvp st) 0
     < nth (length (bvp st) - 2) (bvp st) 0.
Proof.
  unfold isPeak. intros Ep.
  destruct (threshold _) as [thr |]; [| discriminate].
  apply andb_true_iff in Ep. destruct Ep as [Ep E3].
  apply andb_true_iff in Ep. destruct Ep as [_ E2].
  apply gtb_true in E2, E3. split; assumption.
Qed.

(** X23.  [detectPeakAndIBI] changes the state or returns an interval only
    when the buffer has at least 5 samples and the candidate [y[N-2]] is
    strictly greater than both neighbours; so a flat buffer (all samples
    equal) never yields a peak, and the threshold of a zero-variance window
    is just its value. *)
Theorem peak_needs_strict_local_maximum (st : St) (fs : R) :
  let y := bvp st in
  let N := length y in
  (detectPeakAndIBI st fs <> (None, st) ->
   (5 <= N)%nat
   /\ nth (N - 2 - 1) y 0 < nth (N - 2) y 0
   /\ nth (N - 2 + 1) y 0 < nth (N - 2) y 0)
  /\ ((forall i j, (i < N)%nat -> (j < N)%nat -> nth i y 0 = nth j y 0) ->
      detectPeakAndIBI st fs = (None, st))
  /\ (forall v n, threshold (repeat v (S n)) = Some v).
Proof.
  cbv zeta. split; [| split; [| apply threshold_constant]].
  - unfold detectPeakAndIBI.
    destruct (length (bvp st) <? 5)%nat eqn:EN; [congruence |].
    apply Nat.ltb_ge in EN.
    destruct (isPeak st fs) eqn:Ep; [| congruence].
    intros _. split; [exact EN | apply (isPeak_local_max st fs Ep)].
  - intros Hflat. unfold detectPeakAndIBI.
    destruct (length (bvp st) <? 5)%nat eqn:EN; [reflexivity |].
    apply Nat.ltb_ge in EN.
    destruct (isPeak st fs) eqn:Ep; [exfalso | reflexivity].
    destruct (isPeak_local_max st fs Ep) as [H1 _].
    rewrite (Hflat (length (bvp st) - 2 - 1)%nat (length (bvp st) - 2)%nat)
      in H1; [lra | lia | lia].
Qed.

Lemma peak_needs_strict_local_maximum_witness :
  detectPeakAndIBI flatState 30 = (None, flatState).
Proof.
  apply (proj1 (proj2 (peak_needs_strict_local_maximum flatState 30))).
  cbn [flatState bvp length]. intros i j Hi Hj.
  do 6 (destruct i as [| i]; [do 6 (destruct j as [| j]; [reflexivity |]); lia |]).
  lia.
Defined.

(** ** Forehead region *)

Lemma boundsOf_fold (points : list (R * R)) :
  forall a b c d,
    0 <= a <= 1 -> 0 <= b <= 1 -> 0 <= c <= 1 -> 0 <= d <= 1 ->
    Forall inUnitSquare points ->
    exists a' b' c' d',
      fold_left (fun '(minX, maxX, minY, maxY) point =>
                   (Math_min minX (fst point), Math_max maxX (fst point),
                    Math_min minY (snd point), Math_max maxY (snd point)))
                points (a, b, c, d) = (a', b', c', d')
      /\ 0 <= a' <= a /\ b <= b' <= 1 /\ 0 <= c' <= c /\ d <= d' <= 1
      /\ Forall (fun p => a' <= fst p <= b' /\ c' <= snd p <= d') points.
Proof.
  induction points as [| p points IH]; intros a b c d Ha Hb Hc Hd Hall.
  - exists a, b, c, d. cbn [fold_left].
    repeat split; try lra. constructor.
  - inversion Hall as [| p' l' [Hpx Hpy] Hrest]; subst. cbn [fold_left].
    assert (Hmin1 : 0 <= Math_min a (fst p) <= a /\ Math_min a (fst p) <= fst p)
      by (unfold Math_min; apply Rmin_case_strong; intros; lra).
    assert (Hmax1 : b <= Math_max b (fst p) <= 1 /\ fst p <= Math_max b (fst p))
      by (unfold Math_max; apply Rmax_case_strong; intros; lra).
    assert (Hmin2 : 0 <= Math_min c (snd p) <= c /\ Math_min c (snd p) <= snd p)
      by (unfold Math_min; apply Rmin_case_strong; intros; lra).
    assert (Hmax2 : d <= Math_max d (snd p) <= 1 /\ snd p <= Math_max d (snd p))
      by (unfold Math_max; apply Rmax_case_strong; intros; lra).
    destruct (IH (Math_min a (fst p)) (Math_max b (fst p))
                 (Math_min c (snd p)) (Math_max d (snd p)))
      as [a' [b' [c' [d' [Heq [Ha' [Hb' [Hc' [Hd' Hin]]]]]]]]];
      try lra; [exact Hrest |].
    exists a', b', c', d'.
    split; [exact Heq |]. repeat split; try lra.
    constructor; [lra | exact Hin].
Qed.

(** X24.  When the forehead landmarks lie in the unit square, the box
    passed to [setForeheadBox] lies in the unit square too, with
    non-negative width and height, and its lower edge is the height of
    the glabella (landmark 9). *)
Theorem foreheadBox_inside_frame (landmarks : nat -> R * R) :
  Forall (fun i => inUnitSquare (landmarks i)) FOREHEAD_LANDMARKS ->
  let box := foreheadBox landmarks in
  0 <= rect_x box /\ 0 <= rect_w box /\ rect_x box + rect_w box <= 1
  /\ 0 <= rect_y box /\ 0 <= rect_h box
  /\ rect_y box + rect_h box = snd (landmarks 9%nat).
Proof.
  intros Hall; cbv zeta.
  assert (Hpts : Forall inUnitSquare (map landmarks FOREHEAD_LANDMARKS))
    by (apply Forall_map; exact Hall).
  destruct (boundsOf_fold (map landmarks FOREHEAD_LANDMARKS) 1 0 1 0
              ltac:(lra) ltac:(lra) ltac:(lra) ltac:(lra) Hpts)
    as [a [b [c [d [Heq [Ha [Hb [Hc [Hd Hin]]]]]]]]].
  assert (H9 : a <= fst (landmarks 9%nat) <= b
               /\ c <= snd (landmarks 9%nat) <= d).
  { rewrite Forall_forall in Hin. apply Hin. left; reflexivity. }
  unfold foreheadBox, boundsOf. rewrite Heq.
  cbn [rect_x rect_y rect_w rect_h].
  set (gy := snd (landmarks 9%nat)) in *.
  unfold Math_max, Math_min.
  rewrite (Rmax_right 0 ((a + b) / 2 - (b - a) * 0.5 / 2)) by lra.
  rewrite (Rmin_right 1 ((a + b) / 2 + (b - a) * 0.5 / 2)) by lra.
  rewrite (Rmin_right 1 gy) by lra.
  split; [lra | split; [lra | split; [lra |]]].
  apply Rmax_case_strong; intros; repeat split; lra.
Qed.

Lemma foreheadBox_inside_frame_witness :
  0 <= rect_x (foreheadBox (fun _ => (0.5, 0.3))).
Proof.
  apply (foreheadBox_inside_frame (fun _ => (0.5, 0.3))).
  apply Forall_forall. intros i _. unfold inUnitSquare; simpl; lra.
Defined.

(** ** Frame sampling *)

Lemma greenLoop_run (img : list Z) (stride : nat) (cnt : nat) :
  forall m gSum fuel,
    (cnt <= fuel)%nat ->
    (forall j, (j < cnt)%nat -> (stride * (m + j) < length img)%nat) ->
    (length img <= stride * (m + cnt))%nat ->
    greenLoop img stride (stride * m) gSum fuel
    = fold_left Z.add
        (map (fun k => nth (stride * k + 1) img 0%Z) (seq m cnt)) gSum.
Proof.
  induction cnt as [| cnt IH]; intros m gSum fuel Hfuel Hin Hout.
  - cbn [seq map fold_left]. rewrite Nat.add_0_r in Hout.
    destruct fuel as [| fuel]; cbn [greenLoop]; [reflexivity |].
    replace (stride * m <? length img)%nat with false
      by (symmetry; apply Nat.ltb_ge; exact Hout).
    reflexivity.
  - destruct fuel as [| fuel]; [lia |]. cbn [greenLoop seq map fold_left].
    replace (stride * m <? length img)%nat with true
      by (symmetry; apply Nat.ltb_lt;
          specialize (Hin 0%nat ltac:(lia)); rewrite Nat.add_0_r in Hin;
          exact Hin).
    replace (stride * m + stride)%nat with (stride * S m)%nat by lia.
    apply IH; [lia | |].
    + intros j Hj. specialize (Hin (S j) ltac:(lia)).
      replace (S m + j)%nat with (m + S j)%nat by lia. exact Hin.
    + replace (S m + cnt)%nat with (m + S cnt)%nat by lia. exact Hout.
Qed.

Lemma sampleCount_spec (len stride : nat) :
  (0 < stride)%nat ->
  (forall j, (j < sampleCount len stride)%nat -> (stride * j < len)%nat)
  /\ (len <= stride * sampleCount len stride)%nat
  /\ (sampleCount len stride <= len)%nat.
Proof.
  intros Hs. unfold sampleCount.
  pose proof (Nat.div_mod_eq len stride) as Hdm.
  pose proof (Nat.mod_upper_bound len stride ltac:(lia)) as Hr.
  set (q := (len / stride)%nat) in *. set (r := (len mod stride)%nat) in *.
  destruct (r =? 0)%nat eqn:E.
  - apply Nat.eqb_eq in E. repeat split; try nia.
  - apply Nat.eqb_neq in E. repeat split; try nia.
Qed.

Lemma fold_left_Zadd (l : list Z) (a : Z) :
  fold_left Z.add l a = (a + fold_left Z.add l 0)%Z.
Proof.
  revert a; induction l as [| x l IH]; intros a; cbn [fold_left]; [lia |].
  rewrite IH, (IH (0 + x)%Z). lia.
Qed.

Lemma fold_left_Zadd_const (g : Z) (l : list Z) :
  Forall (fun v => v = g) l ->
  fold_left Z.add l 0%Z = (Z.of_nat (length l) * g)%Z.
Proof.
  induction 1 as [| x l Hx _ IH]; [reflexivity |].
  cbn [fold_left length]. rewrite fold_left_Zadd, IH, Hx. lia.
Qed.

(** X25.  On the RGBA bytes of a [width] by [height] canvas, the
    brightness of a frame is the sum of one green byte every
    [4 * step] bytes divided by [floor(length / (4 * step))]; the loop
    reads one byte more than that divisor whenever [4 * step] does not
    divide the length.  So on a uniformly green region the result is the
    green value when the stride divides the length, and that value times
    [(n + 1) / n] otherwise. *)
Theorem greenMean_sampling (width height : nat) (img : list Z) :
  length img = (4 * (width * height))%nat ->
  let stride := (4 * samplingStep width height)%nat in
  let n := (length img / stride)%nat in
  let count := sampleCount (length img) stride in
  greenMean width height img
  = IZR (fold_left Z.add (greenSamples img stride count) 0%Z) / INR n
  /\ (forall g,
        Forall (fun v => v = g) (greenSamples img stride count) ->
        (0 < n)%nat ->
        ((length img mod stride = 0)%nat ->
         greenMean width height img = IZR g)
        /\ ((length img mod stride <> 0)%nat ->
            greenMean width height img = IZR g * (INR n + 1) / INR n)).
Proof.
  intros _; cbv zeta.
  assert (Hstride : (0 < 4 * samplingStep width height)%nat)
    by (unfold samplingStep; lia).
  destruct (sampleCount_spec (length img) _ Hstride) as [Hin [Hout Hfuel]].
  assert (Hsum : greenMean width height img
    = IZR (fold_left Z.add
             (greenSamples img (4 * samplingStep width height)
                (sampleCount (length img) (4 * samplingStep width height)))
             0%Z)
      / INR (length img / (4 * samplingStep width height))).
  { unfold greenMean, greenSamples.
    pose proof (greenLoop_run img (4 * samplingStep width height)
                  (sampleCount (length img) (4 * samplingStep width height))
                  0%nat 0%Z (length img) Hfuel Hin Hout) as Hrun.
    rewrite Nat.mul_0_r in Hrun. rewrite Hrun. reflexivity. }
  split; [exact Hsum |].
  intros g Hall Hn. rewrite Hsum, (fold_left_Zadd_const g _ Hall).
  unfold greenSamples. rewrite length_map, length_seq.
  assert (Hpos : 0 < INR (length img / (4 * samplingStep width height)))
    by (apply lt_0_INR; exact Hn).
  unfold sampleCount. split; intros Hmod.
  - replace (_ =? 0)%nat with true by (symmetry; apply Nat.eqb_eq; exact Hmod).
    rewrite mult_IZR, <- INR_IZR_INZ. field. lra.
  - replace (_ =? 0)%nat with false
      by (symmetry; apply Nat.eqb_neq; exact Hmod).
    rewrite mult_IZR, <- INR_IZR_INZ, S_INR. field. lra.
Qed.

Lemma greenMean_sampling_witness :
  greenMean 1 1 [10; 200; 30; 255]%Z = IZR 200.
Proof.
  apply (proj2 (greenMean_sampling 1 1 [10; 200; 30; 255]%Z eq_refl) 200%Z).
  - repeat constructor.
  - simpl; lia.
  - reflexivity.
Defined.

(** ** Warm-up of the spectral estimate *)

Lemma getLatestSegment_small (sig t0 : list R) (windowSec : R) :
  (length (fst (getLatestSegment sig t0 windowSec)) <= length sig)%nat
  /\ 10 <= snd (getLatestSegment sig t0 windowSec).
Proof.
  unfold getLatestSegment.
  destruct sig as [| s sig']; [simpl; split; [lia | lra] |].
  destruct t0 as [| a t']; [simpl; split; [lia | lra] |].
  cbn [fst snd]. split.
  - unfold slice. rewrite length_skipn. lia.
  - destruct (nth_error _ _) as [ti0 |]; [| lra].
    destruct (gtb _ 0); [| lra].
    unfold Math_min, Math_max.
    apply Rmin_case_strong; apply Rmax_case_strong; intros; lra.
Qed.

(** X26.  The estimator needs more than 40 filtered samples: while the
    buffer held fewer than 40 before a tick, [pushSample] leaves the heart
    rate and the quality ratio as they are. *)
Theorem estimate_needs_41_samples
  (snap : Ui) (st : St) (ui : Ui) (tSec gMean fs : R) :
  (length (bvp st) < 40)%nat ->
  let ui' := snd (pushSample snap st ui tSec gMean fs) in
  hrBpm ui' = hrBpm ui /\ snr ui' = snr ui.
Proof.
  intros Hlen; cbv zeta.
  destruct (pushSample_estimate snap st ui tSec gMean fs) as [-> ->].
  assert (Hb : (length (bvp (ingest st tSec gMean fs)) <= 40)%nat).
  { rewrite ingest_eq; cbn [bvp]. rewrite length_skipn, length_app.
    simpl; lia. }
  rewrite spectral_skip; [split; reflexivity |].
  destruct (getLatestSegment_small (bvp (ingest st tSec gMean fs))
              (t (ingest st tSec gMean fs)) 12) as [H1 H2].
  assert (H3 : INR (length (fst (getLatestSegment
                 (bvp (ingest st tSec gMean fs))
                 (t (ingest st tSec gMean fs)) 12))) <= INR 40).
  { apply le_INR. lia. }
  replace (INR 40) with 40 in H3 by (simpl; lra). lra.
Qed.

Lemma estimate_needs_41_samples_witness :
  hrBpm (snd (pushSample initialUi initialSt estimatedUi 1 128 30))
  = hrBpm estimatedUi
  /\ snr (snd (pushSample initialUi initialSt estimatedUi 1 128 30))
     = snr estimatedUi.
Proof.
  apply (estimate_needs_41_samples initialUi initialSt estimatedUi 1 128 30).
  simpl; lia.
Defined.

(** ** The filter history on a three-frame run *)

Lemma loop_pushes (snap : Ui) (st : St) (ui : Ui) (now gMean : R) :
  loop true snap st ui now (Some gMean)
  = pushSample snap (fst (clockTick st now)) ui (now / 1000) gMean
               (snd (clockTick st now)).
Proof. reflexivity. Qed.

Lemma hrv_filters (snap : Ui) (st : St) (ui : Ui) (fs : R) :
  hp (fst (hrv snap st ui fs)) = hp st /\ lp (fst (hrv snap st ui fs)) = lp st.
Proof.
  unfold hrv.
  pose proof (detectPeakAndIBI_frame st fs) as Hf.
  destruct (detectPeakAndIBI st fs) as [[ibi |] st1]; cbn [snd] in Hf.
  - destruct (truthy (Some ibi));
      destruct Hf as [-> | ->]; split; reflexivity.
  - destruct Hf as [-> | ->]; split; reflexivity.
Qed.

(** The high-pass filter that [pushSample] leaves behind: the one it was
    given, stepped on the detrended sample. *)
Lemma pushSample_hp (snap : Ui) (st : St) (ui : Ui) (tSec gMean fs : R) :
  hp (fst (pushSample snap st ui tSec gMean fs))
  = snd (step (hp st)
           (gMean - movingAverageTail (gRaw st ++ [gMean])
                      (Z.max 5 (Math_floor (1.0 * fs))))).
Proof.
  unfold pushSample.
  destruct (hrv_filters snap (ingest st tSec gMean fs)
              (spectral (ingest st tSec gMean fs) ui) fs) as [-> _].
  rewrite ingest_eq. reflexivity.
Qed.

Lemma movingAverageTail_all (arr : list R) (win : Z) :
  arr <> [] -> (Z.of_nat (length arr) <= win)%Z ->
  movingAverageTail arr win = sum arr / INR (length arr).
Proof.
  intros Hne Hwin. destruct arr as [| a arr']; [congruence |].
  unfold movingAverageTail, slice. rewrite Z.min_r by exact Hwin.
  rewrite Nat2Z.id, Nat.sub_diag, <- INR_IZR_INZ. reflexivity.
Qed.

Lemma biquad_angle (fs fc : R) :
  0 < fc -> 2 * fc < fs ->
  -1 < cos (2 * PI * fc / fs) < 1
  /\ 0 < sin (2 * PI * fc / fs) / (2 * SQRT1_2) < 1.
Proof.
  intros Hfc Hfs.
  assert (Hfs0 : 0 < fs) by lra.
  assert (Hw : 0 < 2 * PI * fc / fs < PI).
  { pose proof PI_RGT_0 as Hpi. split.
    - apply Rdiv_lt_0_compat; [nra | exact Hfs0].
    - apply Rmult_lt_reg_r with fs; [exact Hfs0 |].
      unfold Rdiv. rewrite Rmult_assoc, Rinv_l by lra. nra. }
  pose proof (sin_gt_0 _ (proj1 Hw) (proj2 Hw)) as Hsin.
  pose proof (sin2_cos2 (2 * PI * fc / fs)) as Hsc. unfold Rsqr in Hsc.
  pose proof (alpha_bounds (2 * PI * fc / fs)) as Ha.
  pose proof SQRT1_2_bounds as [Hq _].
  split; [split; nra |].
  split; [apply Rdiv_lt_0_compat; lra | apply Ha].
Qed.

(** What a kept history adds to the high-pass output: with the previous
    input [d] and the previous output [bz0' * d] still in the history, the
    next output changes by [(bz1 - az1 * bz0') * d], and that factor is
    never zero. *)
Lemma hp_carry_term (fs fs' : R) :
  10 <= fs -> 10 <= fs' ->
  bz1 (makeBiquadHP fs 0.7)
  - az1 (makeBiquadHP fs 0.7) * bz0 (makeBiquadHP fs' 0.7) < 0.
Proof.
  intros Hfs Hfs'.
  destruct (biquad_angle fs 0.7 ltac:(lra) ltac:(lra)) as [Hc Ha].
  destruct (biquad_angle fs' 0.7 ltac:(lra) ltac:(lra)) as [Hc' Ha'].
  unfold makeBiquadHP, biquad; cbn [bz0 bz1 az1].
  set (c := cos (2 * PI * 0.7 / fs)) in *.
  set (al := sin (2 * PI * 0.7 / fs) / (2 * SQRT1_2)) in *.
  set (c' := cos (2 * PI * 0.7 / fs')) in *.
  set (al' := sin (2 * PI * 0.7 / fs') / (2 * SQRT1_2)) in *.
  assert (Hi : 0 < / (1 + al)) by (apply Rinv_0_lt_compat; lra).
  assert (Hi' : 0 < / (1 + al') < 1).
  { split; [apply Rinv_0_lt_compat; lra |].
    rewrite <- Rinv_1 at 2. apply Rinv_lt_contravar; lra. }
  set (u := (1 + c') * / (1 + al')).
  assert (Hu : 0 < u < 2) by (unfold u; split; nra).
  assert (Hcu : c * u < 1 + c).
  { destruct (Rle_lt_dec c 0) as [Hneg | Hpos]; nra. }
  replace (- (1 + c) / (1 + al) - -2 * c / (1 + al) * ((1 + c') / 2 / (1 + al')))
    with (/ (1 + al) * (c * u - (1 + c))) by (unfold u; field; lra).
  nra.
Qed.

(** One frame through [loop]: the buffers and the high-pass filter left
    behind. *)
Lemma loop_frame (snap : Ui) (st : St) (ui : Ui) (now gMean : R) :
  let st' := fst (loop true snap st ui now (Some gMean)) in
  let fs := snd (clockTick st now) in
  let k := trimCount (now / 1000 - maxBufSec st) (t st ++ [now / 1000]) in
  t st' = skipn k (t st ++ [now / 1000])
  /\ gRaw st' = skipn k (gRaw st ++ [gMean])
  /\ maxBufSec st' = maxBufSec st
  /\ hp st'
     = snd (step (makeBiquadHP fs 0.7)
              (gMean - movingAverageTail (gRaw st ++ [gMean])
                         (Z.max 5 (Math_floor (1.0 * fs))))).
Proof.
  cbv zeta. rewrite loop_pushes, pushSample_hp.
  destruct (pushSample_buffers snap (fst (clockTick st now)) ui (now / 1000)
              gMean (snd (clockTick st now))) as [-> [-> [_ ->]]].
  repeat split.
Qed.

Lemma window_covers (fs : R) (n : nat) :
  (n <= 5)%nat -> (Z.of_nat n <= Z.max 5 (Math_floor (1.0 * fs)))%Z.
Proof.
  intros Hn. apply Z.le_trans with 5%Z; [lia | apply Z.le_max_l].
Qed.

Lemma tick1_state :
  t (fst tick1) = [1000 / 1000] /\ gRaw (fst tick1) = [128]
  /\ maxBufSec (fst tick1) = 60
  /\ hp (fst tick1)
     = snd (step (makeBiquadHP (snd (clockTick initialSt 1000)) 0.7) 0).
Proof.
  unfold tick1.
  destruct (loop_frame initialUi initialSt initialUi 1000 128)
    as [-> [-> [-> ->]]].
  rewrite movingAverageTail_all;
    [| discriminate | apply window_covers; simpl; lia].
  cbn [initialSt t gRaw maxBufSec app trimCount length]. js_cmp.
  cbn [skipn].
  replace (128 - sum [128] / INR 1) with 0
    by (unfold sum; cbn [fold_left INR]; lra).
  repeat split.
Qed.

Lemma tick2_state :
  gRaw (fst tick2) = [128; 130]
  /\ hp (fst tick2)
     = snd (step (makeBiquadHP (snd (clockTick (fst tick1) 1033)) 0.7) 1).
Proof.
  destruct tick1_state as [Ht [Hg [Hm _]]].
  unfold tick2.
  destruct (loop_frame initialUi (fst tick1) (snd tick1) 1033 130)
    as [_ [-> [_ ->]]].
  rewrite Ht, Hg, Hm.
  rewrite movingAverageTail_all;
    [| discriminate | apply window_covers; simpl; lia].
  cbn [app trimCount length]. js_cmp. cbn [skipn].
  replace (130 - sum [128; 130] / INR 2) with 1
    by (unfold sum; cbn [fold_left INR]; lra).
  split; reflexivity.
Qed.

Lemma tick3_state :
  hp (fst tick3)
  = snd (step (makeBiquadHP (snd (clockTick (fst tick2) 1066)) 0.7) (-2)).
Proof.
  destruct tick2_state as [Hg _].
  unfold tick3.
  destruct (loop_frame initialUi (fst tick2) (snd tick2) 1066 126)
    as [_ [_ [_ ->]]].
  rewrite Hg.
  rewrite movingAverageTail_all;
    [| discriminate | apply window_covers; simpl; lia].
  cbn [app length].
  replace (126 - sum [128; 130; 126] / INR 3) with (-2)
    by (unfold sum; cbn [fold_left INR]; lra).
  reflexivity.
Qed.

Lemma clockTick_hp (st : St) (now : R) :
  hp (fst (clockTick st now)) = makeBiquadHP (snd (clockTick st now)) 0.7.
Proof. reflexivity. Qed.

Lemma step_fresh_state (f : Biquad) (x : R) :
  history f = (0, 0, 0, 0) ->
  x1 (snd (step f x)) = x /\ x2 (snd (step f x)) = 0
  /\ y1 (snd (step f x)) = bz0 f * x /\ y2 (snd (step f x)) = 0
  /\ bz0 (snd (step f x)) = bz0 f.
Proof.
  unfold history, step; intros [= -> -> -> ->];
    cbn [snd x1 x2 y1 y2 bz0].
  repeat split; lra.
Qed.

(** C1, on a concrete run.  After the first frame both histories are still
    zero (the first detrended value is 0), so the second frame cannot tell
    a kept history from a cleared one.  The second frame leaves the input 1
    in the high-pass history; the third frame starts from a zeroed history
    all the same, and its high-pass output differs from the one that the
    history left by the second frame would give. *)
Lemma three_frame_run_drops_history :
  let hp2 := hp (fst tick2) in
  let hp3 := hp (fst (clockTick (fst tick2) 1066)) in
  history (hp (fst tick1)) = (0, 0, 0, 0)
  /\ history hp2 = (1, 0, bz0 hp2 * 1, 0)
  /\ history hp3 = (0, 0, 0, 0)
  /\ hp (fst tick3) = snd (step hp3 (-2))
  /\ fst (step hp3 (-2)) = bz0 hp3 * -2
  /\ fst (step (set_history hp3 (x1 hp2) (x2 hp2) (y1 hp2) (y2 hp2)) (-2))
     <> fst (step hp3 (-2)).
Proof.
  cbv zeta.
  destruct tick1_state as [_ [_ [_ Hh1]]].
  destruct tick2_state as [_ Hh2].
  pose proof tick3_state as Hh3.
  pose proof (clockTick_rate_bounds (fst tick1) 1033) as Hfs2.
  pose proof (clockTick_rate_bounds (fst tick2) 1066) as Hfs3.
  rewrite clockTick_hp.
  generalize dependent (snd (clockTick (fst tick2) 1066)). intros fs3 Hh3 Hfs3.
  generalize dependent (snd (clockTick (fst tick1) 1033)). intros fs2 Hh2 Hfs2.
  generalize dependent (snd (clockTick initialSt 1000)). intros fs1 Hh1.
  generalize dependent (hp (fst tick1)). intros h1 ->.
  generalize dependent (hp (fst tick2)). intros h2 ->.
  generalize dependent (hp (fst tick3)). intros h3 ->.
  pose proof (biquad_history fs1 0.7 SQRT1_2 hp_type) as Hz1.
  pose proof (biquad_history fs2 0.7 SQRT1_2 hp_type) as Hz2.
  pose proof (biquad_history fs3 0.7 SQRT1_2 hp_type) as Hz3.
  fold (makeBiquadHP fs1 0.7) in Hz1. fold (makeBiquadHP fs2 0.7) in Hz2.
  fold (makeBiquadHP fs3 0.7) in Hz3.
  destruct (step_fresh_state _ 0 Hz1) as [A1 [A2 [A3 [A4 _]]]].
  destruct (step_fresh_state _ 1 Hz2) as [E1 [E2 [E3 [E4 Hb2]]]].
  pose proof (hp_carry_term fs3 fs2 (proj1 Hfs3) (proj1 Hfs2)) as Hcarry.
  split.
  { unfold history. rewrite A1, A2, A3, A4, Rmult_0_r. reflexivity. }
  split; [unfold history; rewrite E1, E2, E3, E4, Hb2; reflexivity |].
  split; [exact Hz3 | split; [reflexivity | split]].
  { apply step_fresh; exact Hz3. }
  rewrite (step_fresh _ _ Hz3), E1, E2, E3, E4.
  unfold step, set_history; cbn [fst bz0 bz1 bz2 az1 az2 x1 x2 y1 y2].
  lra.
Qed.
